(** * job-alert: a shallow embedding of [job-alert.py]

    The script scrapes two job boards, keeps the entry-level postings,
    removes duplicate links, writes a CSV/HTML report and optionally mails
    it.  This file embeds its functions in Rocq and proves properties of
    them.

    Modelling conventions.
    - A Python [str] is a [string]: the sequence of bytes of its UTF-8
      encoding.  [str.lower] is modelled on the letters [A]-[Z]; the
      module's keywords are ASCII, so substring tests against them read
      the same on the byte sequence.
    - A posting (a Python [dict] with string keys and string values) is a
      [gmap string string]; the [seen] set of links is a [gset string].
    - Exceptions are values of [exn]; a call either returns or raises
      ([outcome]).  Printing, file writes and network traffic are recorded
      in an explicit [world] that is threaded through the effectful
      functions.
    - The module-level constants are the fields of [globals]; Python
      functions read them at call time, so every function takes the
      globals as its first argument. *)

From Stdlib Require Import ZArith NArith Ascii String DecimalString.
From stdpp Require Import gmap strings list fin_maps.

Local Open Scope Z_scope.
Set Warnings "-register-all".

(** ** Strings *)

Module Str.

(** [c.lower()] on one character. *)
Definition lower_char (c : ascii) : ascii :=
  let n := N_of_ascii c in
  if ((65 <=? n) && (n <=? 90))%N then ascii_of_N (n + 32) else c.

(** [s.lower()], on the letters [A]-[Z] of the UTF-8 bytes of [s]. The
    ASCII characters of the lowered text come out as [str.lower] gives
    them, but for two it adds: U+0130 lowers to an [i] followed by U+0307,
    and U+212A to a [k]. A search for an ASCII keyword that has no [k] and
    does not end in [i] therefore finds the same occurrences in both. *)
Fixpoint lower (s : string) : string :=
  match s with
  | EmptyString => EmptyString
  | String c s' => String (lower_char c) (lower s')
  end.

(** [t.startswith(k)]. *)
Fixpoint startswith (k t : string) : bool :=
  match k, t with
  | EmptyString, _ => true
  | String _ _, EmptyString => false
  | String a k', String b t' => bool_decide (a = b) && startswith k' t'
  end.

(** [k in t] for two strings: [k] occurs in [t] as a contiguous run. *)
Fixpoint str_in (k t : string) : bool :=
  startswith k t ||
  match t with
  | EmptyString => false
  | String _ t' => str_in k t'
  end.

(** [any(f(x) for x in l)]. *)
Definition any {A} (f : A → bool) (l : list A) : bool := existsb f l.

(** [str(n)] for an integer. *)
Definition str_of_int (n : Z) : string :=
  NilZero.string_of_int (Z.to_int n).

(** White space that [int] skips at both ends: tab, line feed, vertical
    tab, form feed, carriage return and space. *)
Definition is_space (c : ascii) : bool :=
  let n := N_of_ascii c in
  ((9 <=? n) && (n <=? 13) || (n =? 32))%N.

Fixpoint lstrip (s : string) : string :=
  match s with
  | String c s' => if is_space c then lstrip s' else s
  | EmptyString => EmptyString
  end.

(** [s.rstrip()]: [rstrip s] is empty when all of [s] is white space. *)
Fixpoint rstrip (s : string) : string :=
  match s with
  | EmptyString => EmptyString
  | String c s' =>
      match rstrip s' with
      | EmptyString => if is_space c then EmptyString
                       else String c EmptyString
      | r => String c r
      end
  end.

Definition digit_value (c : ascii) : option Z :=
  let n := N_of_ascii c in
  if ((48 <=? n) && (n <=? 57))%N then Some (Z.of_N n - 48) else None.

(** The digits of a decimal literal, read left to right: [acc] is the
    value so far, [count] the number of digits read, [after_digit] tells
    whether the previous character was a digit.  An underscore may stand
    only between two digits. *)
Fixpoint digits (s : string) (acc : Z) (count : nat) (after_digit : bool)
    : option (Z * nat) :=
  match s with
  | EmptyString => if after_digit then Some (acc, count) else None
  | String c s' =>
      match digit_value c with
      | Some d => digits s' (10 * acc + d) (S count) true
      | None =>
          if bool_decide (c = "_"%char) && after_digit
          then digits s' acc count false
          else None
      end
  end.

(** The default of [sys.get_int_max_str_digits()]. *)
Definition max_str_digits : nat := 4300.

(** [int(s)] for a string, base ten: optional white space, an optional
    sign, then digits.  ASCII only: the white space and digits of other
    scripts, which [int] reads too, are taken as malformed here. *)
Definition int_parse (s : string) : option Z :=
  let s := rstrip (lstrip s) in
  let '(sign, body) :=
    match s with
    | String "+" r => (1, r)
    | String "-" r => (-1, r)
    | _ => (1, s)
    end in
  match digits body 0 0 false with
  | Some (v, count) =>
      if bool_decide (count ≤ max_str_digits)%nat then Some (sign * v)
      else None
  | None => None
  end.

(** The one-character string holding a double quote (code 34). *)
Definition dquote : string := String (ascii_of_N 34) EmptyString.

(** [sep.join(l)]. *)
Fixpoint join (sep : string) (l : list string) : string :=
  match l with
  | [] => EmptyString
  | [s] => s
  | s :: rest => s +:+ sep +:+ join sep rest
  end.

End Str.

(** ** Module-level constants *)

Record globals := Globals {
  KEYWORDS : string;
  LOCATIONS : list string;
  WORK_MODES : list string;
  EXPERIENCE_KEYWORDS : list string;
  HEADERS : gmap string string
}.

(** The values the module binds when it is loaded. *)
Definition module_globals : globals := {|
  KEYWORDS :=
    "software engineer OR " +:+ Str.dquote +:+ "web developer" +:+ Str.dquote
    +:+ " OR web dev";
  LOCATIONS := ["India"; "Saudi Arabia"];
  WORK_MODES := ["remote"; "hybrid"; "on-site"];
  EXPERIENCE_KEYWORDS :=
    ["junior"; "entry level"; "entry-level"; "graduate"; "intern"];
  HEADERS :=
    {[ "User-Agent" :=
       "Mozilla/5.0 (compatible; job-fetcher/1.0; +https://example.com/bot)" ]}
|}.

(** ** Matcher *)

Definition matches_experience (g : globals) (text : string) : bool :=
  let t := Str.lower text in
  Str.any (λ k, Str.str_in k t) (EXPERIENCE_KEYWORDS g).

Definition matches_work_mode (g : globals) (text : string) : bool :=
  let t := Str.lower text in
  Str.any (λ m, Str.str_in m t) (WORK_MODES g).

(** ** Exceptions, outcomes and the world *)

Inductive exn :=
| KeyError (key : string)
| TypeError
| ValueError
| Timeout                      (* requests.exceptions.Timeout *)
| ConnectionError              (* requests.exceptions.ConnectionError *)
| FileNotFoundError (path : string)
| OSError
| SMTPException.

Inductive outcome (A : Type) :=
| Returned (a : A)
| Raised (e : exn).
Arguments Returned {A} a.
Arguments Raised {A} e.

(** A parsed markup element as the adapters query it.  [stripped_strings]
    are the element's text fragments, stripped and without the empty ones;
    [select sel] is the list of descendants matching the CSS selector
    [sel], in document order. *)
Inductive tag := Tag {
  stripped_strings : list string;
  attrs : gmap string string;
  select : string → list tag
}.

(** [el.get_text(sep, strip=True)]. *)
Definition get_text (sep : string) (el : tag) : string :=
  Str.join sep (stripped_strings el).

(** [el.select_one(sel)]: the first match, or [None]. *)
Definition select_one (sel : string) (el : tag) : option tag :=
  head (select el sel).

(** [a or b] on two results of [select_one] (a [Tag] is always truthy). *)
Definition tag_or (a b : option tag) : option tag :=
  match a with Some _ => a | None => b end.

(** A response of [requests.get]; [soup] is its body as
    [BeautifulSoup(r.text, 'html.parser')] reads it. *)
Record response := Response {
  status_code : Z;
  soup : tag
}.

Record message := Message {
  msg_subject : string;
  msg_from : string;
  msg_to : string;
  msg_content : string;
  msg_attachments : list (string * string)   (* filename, data *)
}.

(** What leaves the machine. *)
Inductive net_event :=
| HttpGet (url : string) (headers : gmap string string) (timeout : Z)
| SmtpConnect (host : string) (port : Z)
| SmtpStartTls
| SmtpLogin (user pass : string)
| SmtpSend (msg : message).

(** The state the script changes. *)
Record world := World {
  stdout : list string;              (* lines printed so far *)
  files : gmap string string;        (* path to content *)
  network : list net_event;          (* traffic so far *)
  slept : Z                          (* seconds spent in time.sleep *)
}.

(** A call into the [email] package while the message is built. *)
Inductive email_call :=
| SetHeader (name value : string)       (* msg[name] = value *)
| SetContent (body : string)            (* msg.set_content(body) *)
| AddAttachment (filename data : string).

(** What the script meets outside its own code and cannot change: the
    process environment, how the remote servers answer, and which calls
    the [email] package refuses (it raises [ValueError] for a subject or a
    file name with a line break in it, and more for an address it cannot
    read); [None] stands for a step that goes through. *)
Record environment := Environment {
  environ : gmap string string;
  http : string → outcome response;
  smtp_connect : string → Z → option exn;
  smtp_starttls : option exn;
  smtp_login : string → string → option exn;
  smtp_send : message → option exn;
  email_refuses : email_call → option exn
}.

(** Computations: a state monad over [world] whose result is an [outcome];
    the world reached before an exception is kept. *)
Definition M (A : Type) : Type := world → outcome A * world.

Global Instance M_ret : MRet M := λ A a w, (Returned a, w).
Global Instance M_bind : MBind M := λ A B f m w,
  match m w with
  | (Returned a, w') => f a w'
  | (Raised e, w') => (Raised e, w')
  end.

Definition raise {A} (e : exn) : M A := λ w, (Raised e, w).

(** Lift a pure computation that may raise. *)
Definition lift {A} (o : outcome A) : M A := λ w, (o, w).

(** [print(a, b, ...)]: the arguments joined by one space. *)
Definition print (args : list string) : M unit := λ w,
  (Returned (),
   World (stdout w ++ [Str.join " " args]) (files w) (network w) (slept w)).

Definition emit (ev : net_event) : M unit := λ w,
  (Returned (), World (stdout w) (files w) (network w ++ [ev]) (slept w)).

(** [time.sleep(n)]. *)
Definition sleep (n : Z) : M unit := λ w,
  (Returned (), World (stdout w) (files w) (network w) (slept w + n)).

(** [open(path, 'w').write(data)], and what [to_csv(path)] does. *)
Definition write_file (path data : string) : M unit := λ w,
  (Returned (),
   World (stdout w) (<[path := data]> (files w)) (network w) (slept w)).

(** [open(path, 'rb').read()]. *)
Definition read_file (path : string) : M string := λ w,
  match files w !! path with
  | Some data => (Returned data, w)
  | None => (Raised (FileNotFoundError path), w)
  end.

(** Raise [e] when the server refuses ([Some e]). *)
Definition check (r : option exn) : M unit :=
  match r with
  | None => mret ()
  | Some e => raise e
  end.

(** [requests.get(url, headers=headers, timeout=timeout)]. *)
Definition requests_get (E : environment) (url : string)
    (headers : gmap string string) (timeout : Z) : M response :=
  _ ← emit (HttpGet url headers timeout);
  lift (http E url).

(** [int(s)]: [ValueError] on a malformed literal. *)
Definition int (s : string) : outcome Z :=
  match Str.int_parse s with
  | Some n => Returned n
  | None => Raised ValueError
  end.

Global Instance outcome_ret : MRet outcome := λ A a, Returned a.
Global Instance outcome_bind : MBind outcome := λ A B f o,
  match o with
  | Returned a => f a
  | Raised e => Raised e
  end.

(** A [for x in l:] loop whose body updates the loop state [s] and may
    raise: the first exception ends the loop. *)
Fixpoint for_each `{MBind F, MRet F} {A S : Type}
    (body : S → A → F S) (l : list A) (s : S) : F S :=
  match l with
  | [] => mret s
  | x :: l' => s' ← body s x; for_each body l' s'
  end.

(** ** URL encoding ([urllib.parse]) *)

Module Url.

(** The characters [quote] never escapes: letters, digits and [_.-~]. *)
Definition always_safe (c : ascii) : bool :=
  let n := N_of_ascii c in
  ((48 <=? n) && (n <=? 57) || (65 <=? n) && (n <=? 90)
   || (97 <=? n) && (n <=? 122))%N
  || bool_decide (c ∈ ["_"; "."; "-"; "~"]%char).

Definition hex_digit (n : N) : ascii :=
  if (n <? 10)%N then ascii_of_N (48 + n) else ascii_of_N (55 + n).

(** One byte as [%XX], upper-case hexadecimal. *)
Definition percent (c : ascii) : string :=
  let n := N_of_ascii c in
  String "%" (String (hex_digit (n / 16)) (String (hex_digit (n mod 16))
    EmptyString)).

(** [quote_plus(s)]: a space becomes [+], every byte outside the safe
    set is percent-escaped. *)
Fixpoint quote_plus (s : string) : string :=
  match s with
  | EmptyString => EmptyString
  | String c s' =>
      (if bool_decide (c = " "%char) then "+"
       else if always_safe c then String c EmptyString
       else percent c) +:+ quote_plus s'
  end.

(** [urlencode(params)] (the default [quote_via] is [quote_plus]). *)
Definition urlencode (params : list (string * string)) : string :=
  Str.join "&"
    ((λ kv, quote_plus kv.1 +:+ "=" +:+ quote_plus kv.2) <$> params).

End Url.

(** ** Postings *)

(** A posting is a dictionary from field names to text. *)
Abbreviation posting := (gmap string string).

(** [e.get(k, d)]. *)
Definition dict_get (e : posting) (k d : string) : string :=
  default d (e !! k).

(** [e[k]]. *)
Definition dict_item (e : posting) (k : string) : outcome string :=
  match e !! k with
  | Some v => Returned v
  | None => Raised (KeyError k)
  end.

(** ** Source adapters *)

Definition indeed_url (g : globals) (location : string) : string :=
  let q := KEYWORDS g in
  let base := "https://www.indeed.com/jobs" in
  let params := [("q", q); ("l", location); ("fromage", "3")] in
  base +:+ "?" +:+ Url.urlencode params.

(** The body of the loop over the cards of the result page. *)
Definition indeed_card (g : globals) (location url : string)
    (results : list posting) (card : tag) : list posting :=
  let title_el := select_one "h2.title, h2.jobTitle" card in
  let title :=
    match title_el with Some el => get_text "" el | None => "N/A" end in
  let company :=
    tag_or (select_one ".company" card) (select_one ".companyName" card) in
  let company :=
    match company with Some el => get_text "" el | None => "N/A" end in
  let loc :=
    tag_or (select_one ".location" card)
           (select_one ".companyLocation" card) in
  let loc := match loc with Some el => get_text "" el | None => location end in
  let link_el := select_one "a" card in
  let link :=
    match link_el with
    | Some el =>
        match attrs el !! "href" with
        | Some href =>
            if bool_decide (href ≠ "")
            then "https://www.indeed.com" +:+ href else url
        | None => url
        end
    | None => url
    end in
  let summary :=
    tag_or (select_one ".summary" card) (select_one ".job-snippet" card) in
  let summary_text :=
    match summary with Some el => get_text " " el | None => "" end in
  if matches_experience g (title +:+ " " +:+ summary_text)
     || matches_experience g company
  then results ++ [list_to_map
         [("title", title); ("company", company); ("location", loc);
          ("salary", "N/A"); ("link", link); ("source", "Indeed");
          ("summary", summary_text)]]
  else results.

Definition parse_indeed (g : globals) (E : environment) (location : string)
    : M (list posting) :=
  let results := [] in
  let url := indeed_url g location in
  r ← requests_get E url (HEADERS g) 15;
  if bool_decide (status_code r ≠ 200) then
    _ ← print ["Indeed fetch failed:"; Str.str_of_int (status_code r)];
    mret results
  else
    let soup := soup r in
    mret (foldl (indeed_card g location url) results
            (select soup ".jobsearch-SerpJobCard, .result")).

Definition wellfound_url (g : globals) (location : string) : string :=
  let base := "https://wellfound.com/jobs" in
  let params :=
    [("search[query]", KEYWORDS g); ("search[locations][]", location)] in
  base +:+ "?" +:+ Url.urlencode params.

(** The selector of a job card's link; [Str.dquote] stands for the quote
    characters around the attribute value. *)
Definition job_link : string :=
  "a[data-test=" +:+ Str.dquote +:+ "job-link" +:+ Str.dquote +:+ "]".
Definition job_card : string :=
  "li[data-test=" +:+ Str.dquote +:+ "job-card" +:+ Str.dquote +:+ "]".
Definition job_card_company_name : string :=
  "[data-test=" +:+ Str.dquote +:+ "job-card-company-name" +:+ Str.dquote
  +:+ "]".

(** The body of the loop over the job cards.  [title] is [None] when the
    card has no link element ([x and y] yields [x] when [x] is [None]);
    adding a string to [None] raises [TypeError], and subscripting an
    element with an attribute it lacks raises [KeyError]. *)
Definition wellfound_card (g : globals) (location url : string)
    (results : list posting) (job : tag) : outcome (list posting) :=
  let title : option string :=
    match select_one job_link job with
    | Some el => Some (get_text "" el)
    | None => None
    end in
  let company := select_one job_card_company_name job in
  let company :=
    match company with Some el => get_text "" el | None => "N/A" end in
  let link_el := select_one job_link job in
  link ← match link_el with
         | Some el =>
             match attrs el !! "href" with
             | Some href => Returned ("https://wellfound.com" +:+ href)
             | None => Raised (KeyError "href")
             end
         | None => Returned url
         end;
  let summary := get_text " " job in
  '(title, text) ← match title with
                    | Some t => Returned (t, t +:+ " " +:+ summary)
                    | None => Raised TypeError
                    end;
  if matches_experience g text
  then
    Returned (results ++ [list_to_map
      [("title", title); ("company", company); ("location", location);
       ("salary", "N/A"); ("link", link); ("source", "Wellfound");
       ("summary", summary)]])
  else Returned results.

Definition parse_wellfound (g : globals) (E : environment)
    (location : string) : M (list posting) :=
  let results := [] in
  let url := wellfound_url g location in
  r ← requests_get E url (HEADERS g) 15;
  if bool_decide (status_code r ≠ 200) then
    _ ← print ["Wellfound fetch failed:"; Str.str_of_int (status_code r)];
    mret results
  else
    let soup := soup r in
    lift (for_each (wellfound_card g location url)
            (take 30 (select soup job_card)) results).

Definition parse_glassdoor (location : string) : M (list posting) :=
  _ ← print ["Glassdoor: recommended to use Glassdoor alerts or their API due to scraping protections."];
  mret [].

Definition parse_linkedin (location : string) : M (list posting) :=
  _ ← print ["LinkedIn: recommend using LinkedIn job alerts or official API (scraping discouraged)."];
  mret [].

(** ** Consolidator *)

(** The text the consolidator tests: title, one space, summary. *)
Definition entry_text (e : posting) : string :=
  dict_get e "title" "" +:+ " " +:+ dict_get e "summary" "".

(** The body of the loop; the loop state is [(seen, filtered)]. *)
Definition consolidate_step (g : globals)
    (st : gset string * list posting) (e : posting)
    : outcome (gset string * list posting) :=
  let '(seen, filtered) := st in
  link ← dict_item e "link";
  if bool_decide (link ∈ seen) then mret (seen, filtered)
  else
    let seen := {[link]} ∪ seen in
    let text := Str.lower (entry_text e) in
    if matches_experience g text
    then mret (seen, filtered ++ [e])
    else mret (seen, filtered).

Definition consolidate_and_filter (g : globals) (entries : list posting)
    : outcome (list posting) :=
  st ← for_each (consolidate_step g) entries (∅, []);
  mret st.2.

(** ** Reporter *)

(** A table: column names and rows of cells; a cell is [None] where the
    record has no value for the column (pandas fills it with NaN). *)
Record DataFrame := {
  columns : list string;
  rows : list (list (option string))
}.

(** [pd.DataFrame(results)[cols]]: the columns of the frame are the keys
    that occur in some record; selecting a column that is none of them
    raises [KeyError]. *)
Definition frame_select (results : list posting) (cols : list string)
    : outcome DataFrame :=
  let present : gset string := ⋃ (dom <$> results) in
  match filter (λ c, c ∉ present) cols with
  | [] =>
      Returned {| columns := cols;
                  rows := (λ e : posting, (λ c, e !! c) <$> cols) <$> results |}
  | c :: _ => Raised (KeyError c)
  end.

Section Script.

(** The two writers of pandas, [DataFrame.to_csv(index=False)] and
    [DataFrame.to_html(index=False, escape=True)], as functions from the
    table to the text they produce. *)
Variables to_csv to_html : DataFrame → string.

Definition save_results (results : list posting) : M unit :=
  match results with
  | [] => print ["No results to save."]
  | _ =>
      df ← lift (frame_select results
                   ["title"; "company"; "salary"; "link"; "source";
                    "location"]);
      _ ← write_file "jobs.csv" (to_csv df);
      let html := to_html df in
      _ ← write_file "jobs.html" html;
      print ["Saved " +:+ Str.str_of_int (Z.of_nat (length (rows df)))
             +:+ " jobs to jobs.csv and jobs.html"]
  end.

(** ** Notifier *)

(** [os.getenv(k)]. *)
Definition getenv (E : environment) (k : string) : option string :=
  environ E !! k.

(** Truth value of a string or [None]. *)
Definition truthy (v : option string) : bool :=
  match v with
  | Some s => bool_decide (s ≠ "")
  | None => false
  end.

(** [os.path.basename(path)]: what follows the last slash. *)
Fixpoint basename (path : string) : string :=
  match path with
  | EmptyString => EmptyString
  | String c rest =>
      if Str.str_in "/" rest then basename rest
      else if bool_decide (c = "/"%char) then rest
      else path
  end.

(** The loop over the attachment paths. *)
Definition attach (E : environment) (atts : list (string * string))
    (path : string) : M (list (string * string)) :=
  data ← read_file path;
  _ ← check (email_refuses E (AddAttachment (basename path) data));
  mret (atts ++ [(basename path, data)]).

(** The text of [s] before and after its first colon. *)
Fixpoint partition_colon (s : string) : option (string * string) :=
  match s with
  | EmptyString => None
  | String c s' =>
      if bool_decide (c = ":"%char) then Some (EmptyString, s')
      else
        match partition_colon s' with
        | Some (a, b) => Some (String c a, b)
        | None => None
        end
  end.

(** Where [smtplib.SMTP(host, port)] connects to. With port 0 and a host
    that has one colon, the host is read as host:port, and a port that is
    no number raises [OSError]; a port that is still 0 becomes 25. *)
Definition smtp_target (host : string) (port : Z) : outcome (string * Z) :=
  target ←
    (if bool_decide (port = 0) then
       match partition_colon host with
       | Some (h, p) =>
           if Str.str_in ":" p then Returned (host, port)
           else
             match Str.int_parse p with
             | Some n => Returned (h, n)
             | None => Raised OSError
             end
       | None => Returned (host, port)
       end
     else Returned (host, port));
  mret (target.1, if bool_decide (target.2 = 0) then 25 else target.2).

Definition send_email_with_attachments (E : environment)
    (subject body : string) (attachments : option (list string))
    : M unit :=
  let SMTP_HOST := getenv E "EMAIL_SMTP_HOST" in
  SMTP_PORT ← lift (match getenv E "EMAIL_SMTP_PORT" with
                    | Some s => int s
                    | None => Returned 587
                    end);
  let USER := getenv E "EMAIL_USER" in
  let PASS := getenv E "EMAIL_PASS" in
  let TO := getenv E "EMAIL_TO" in
  match SMTP_HOST, USER, PASS, TO with
  | Some host, Some user, Some pass, Some to =>
      if negb (truthy SMTP_HOST && truthy USER && truthy PASS && truthy TO)
      then print ["Email not configured; skipping email send."]
      else
        _ ← check (email_refuses E (SetHeader "Subject" subject));
        _ ← check (email_refuses E (SetHeader "From" user));
        _ ← check (email_refuses E (SetHeader "To" to));
        _ ← check (email_refuses E (SetContent body));
        atts ← for_each (attach E) (default [] attachments) [];
        let msg := Message subject user to body atts in
        target ← lift (smtp_target host SMTP_PORT);
        _ ← emit (SmtpConnect target.1 target.2);
        _ ← check (smtp_connect E target.1 target.2);
        _ ← emit SmtpStartTls;
        _ ← check (smtp_starttls E);
        _ ← emit (SmtpLogin user pass);
        _ ← check (smtp_login E user pass);
        _ ← emit (SmtpSend msg);
        _ ← check (smtp_send E msg);
        print ["Email sent to"; to]
  | _, _, _, _ => print ["Email not configured; skipping email send."]
  end.

(** ** Aggregator and entry point *)

(** The body of the loop over the locations. *)
Definition main_step (g : globals) (E : environment)
    (entries : list posting) (loc : string) : M (list posting) :=
  r ← parse_indeed g E loc;
  let entries := entries ++ r in
  r ← parse_wellfound g E loc;
  let entries := entries ++ r in
  r ← parse_glassdoor loc;
  let entries := entries ++ r in
  r ← parse_linkedin loc;
  let entries := entries ++ r in
  _ ← sleep 1;
  mret entries.

Definition main (g : globals) (E : environment) : M unit :=
  entries ← for_each (main_step g E) (LOCATIONS g) [];
  results ← lift (consolidate_and_filter g entries);
  _ ← save_results results;
  match results with
  | [] => mret ()
  | _ =>
      send_email_with_attachments E "Daily Junior Software/Web Jobs"
        "Attached: jobs.csv and jobs.html" (Some ["jobs.csv"; "jobs.html"])
  end.

End Script.

(** ** Notions the properties are stated with *)

(** Two characters are the same letter up to case: equal, or one is a
    capital [A]-[Z] and the other is 32 code points above it. *)
Definition is_capital (c : ascii) : Prop :=
  (65 ≤ N_of_ascii c ≤ 90)%N.

Definition same_letter (a b : ascii) : Prop :=
  a = b
  ∨ (is_capital a ∧ N_of_ascii b = (N_of_ascii a + 32)%N)
  ∨ (is_capital b ∧ N_of_ascii a = (N_of_ascii b + 32)%N).

(** Two strings of the same length whose characters agree up to case. *)
Inductive same_ignoring_case : string → string → Prop :=
| sic_empty : same_ignoring_case EmptyString EmptyString
| sic_char a b s t :
    same_letter a b → same_ignoring_case s t →
    same_ignoring_case (String a s) (String b t).

(** [text] contains [k] as a substring, ignoring case, at some position. *)
Definition contains_ignoring_case (text k : string) : Prop :=
  ∃ pre mid post, text = pre +:+ mid +:+ post ∧ same_ignoring_case mid k.

(** A keyword on which the byte-wise [Str.lower] and [str.lower] agree for
    every text: it is ASCII, has no [k] in it and does not end in [i]. *)
Fixpoint plain_keyword (k : string) : bool :=
  match k with
  | EmptyString => true
  | String c k' =>
      (N_of_ascii c <? 128)%N
      && negb (bool_decide (c = "k"%char))
      && match k' with
         | EmptyString => negb (bool_decide (c = "i"%char))
         | _ => plain_keyword k'
         end
  end.

(** The first record of [entries] whose link is [l]. *)
Definition first_with_link (l : string) (entries : list posting)
    : option posting :=
  find (λ e : posting, bool_decide (e !! "link" = Some l)) entries.

(** The links of a list of records, in order. *)
Definition links (entries : list posting) : list (option string) :=
  (λ e : posting, e !! "link") <$> entries.

(** A record that carries a link, as every record an adapter builds. *)
Definition has_link (e : posting) : Prop := is_Some (e !! "link").

(** The record passes the experience filter on its own text. *)
Definition passes (g : globals) (e : posting) : Prop :=
  matches_experience g (entry_text e) = true.

(** The globals with another work-mode vocabulary. *)
Definition with_work_modes (g : globals) (modes : list string) : globals :=
  Globals (KEYWORDS g) (LOCATIONS g) modes (EXPERIENCE_KEYWORDS g)
          (HEADERS g).

(** ** Concrete inputs used in the examples *)

(** A record as the adapters build it. *)
Definition sample_posting (title summary link : string) : posting :=
  list_to_map
    [("title", title); ("company", "Acme"); ("location", "India");
     ("salary", "N/A"); ("link", link); ("source", "Indeed");
     ("summary", summary)].

(** An environment whose mail server and [email] package accept
    everything. *)
Definition sample_environment (env : gmap string string)
    (net : string → outcome response) : environment :=
  Environment env net (λ _ _, None) None (λ _ _, None) (λ _, None)
    (λ _, None).

(** An element without descendants. *)
Definition leaf (strings : list string) (attributes : gmap string string)
    : tag :=
  Tag strings attributes (λ _, []).

(** A Wellfound job card with a company name and no link element. *)
Definition card_without_link : tag :=
  Tag ["Junior Web Developer"; "Acme"] ∅
      (λ sel, if bool_decide (sel = job_card_company_name)
              then [leaf ["Acme"] ∅] else []).

(** A result page holding that one card. *)
Definition page_without_link : response :=
  Response 200
    (Tag ["Junior Web Developer"; "Acme"] ∅
       (λ sel, if bool_decide (sel = job_card)
               then [card_without_link] else [])).

(** Every request is answered with the given status and an empty page. *)
Definition status_environment (status : Z) : environment :=
  sample_environment ∅ (λ _, Returned (Response status (leaf [] ∅))).

(** Every request times out. *)
Definition timeout_environment : environment :=
  sample_environment ∅ (λ _, Raised Timeout).

(** An environment with a malformed port and no recipient. *)
Definition bad_port_environment : environment :=
  sample_environment
    {[ "EMAIL_SMTP_PORT" := "abc" ]}
    (λ _, Raised ConnectionError).

(** The world an adapter leaves behind after a fetch that failed with
    status [status]. *)
Definition after_failed_fetch (board url : string)
    (headers : gmap string string) (status : Z) (w : world) : world :=
  World (stdout w ++ [board +:+ " fetch failed: " +:+ Str.str_of_int status])
        (files w) (network w ++ [HttpGet url headers 15]) (slept w).

(** The seven fields of a record, as a set. *)
Definition posting_fields : gset string :=
  list_to_set
    ["title"; "company"; "location"; "salary"; "link"; "source"; "summary"].

(** A Wellfound job card the adapter can read: it has a link element, and
    that element has an address. *)
Definition readable_card (job : tag) : Prop :=
  ∃ el, select_one job_link job = Some el ∧ is_Some (attrs el !! "href").

(** An Indeed card with every element the adapter looks for, in the second
    of the two markup shapes. *)
Definition indeed_card_full : tag :=
  Tag ["Junior Web Developer"; "Acme"; "Pune"; "Entry"; "level"] ∅
    (λ sel,
       if bool_decide (sel = "h2.title, h2.jobTitle")
       then [leaf ["Junior Web Developer"] ∅]
       else if bool_decide (sel = ".companyName") then [leaf ["Acme"] ∅]
       else if bool_decide (sel = ".companyLocation") then [leaf ["Pune"] ∅]
       else if bool_decide (sel = "a")
       then [leaf [] {[ "href" := "/rc/clk?jk=1" ]}]
       else if bool_decide (sel = ".job-snippet")
       then [leaf ["Entry"; "level"] ∅]
       else []).

(** An Indeed card with a company name only. *)
Definition indeed_card_company : tag :=
  Tag ["Graduate Recruiters Ltd"] ∅
    (λ sel, if bool_decide (sel = ".company")
            then [leaf ["Graduate Recruiters Ltd"] ∅] else []).

Definition indeed_page : response :=
  Response 200
    (Tag [] ∅
       (λ sel, if bool_decide (sel = ".jobsearch-SerpJobCard, .result")
               then [indeed_card_full; indeed_card_company] else [])).

(** A Wellfound job card with a link. *)
Definition wellfound_card_full : tag :=
  Tag ["Junior Web Developer"; "Acme"] ∅
    (λ sel,
       if bool_decide (sel = job_link)
       then [leaf ["Junior Web Developer"] {[ "href" := "/jobs/1" ]}]
       else if bool_decide (sel = job_card_company_name)
       then [leaf ["Acme"] ∅]
       else []).

(** A Wellfound page with forty copies of that card. *)
Definition wellfound_page : response :=
  Response 200
    (Tag [] ∅
       (λ sel, if bool_decide (sel = job_card)
               then replicate 40 wellfound_card_full else [])).

(** What holds of every record the Indeed adapter returns for a search
    at [location]: it has the seven fields, its link is the search address
    or an address on the board, and its title and summary, or else its
    company, pass the experience filter. *)
Definition indeed_record (g : globals) (location : string) (e : posting)
    : Prop :=
  dom e = posting_fields
  ∧ e !! "source" = Some "Indeed" ∧ e !! "salary" = Some "N/A"
  ∧ (∃ link, e !! "link" = Some link
       ∧ (link = indeed_url g location
          ∨ ∃ href, href ≠ "" ∧ link = "https://www.indeed.com" +:+ href))
  ∧ (passes g e
     ∨ ∃ company, e !! "company" = Some company
         ∧ matches_experience g company = true).

(** The same for the Wellfound adapter: the location is the one searched
    for, and the title and summary pass the filter. *)
Definition wellfound_record (g : globals) (location : string) (e : posting)
    : Prop :=
  dom e = posting_fields
  ∧ e !! "source" = Some "Wellfound" ∧ e !! "salary" = Some "N/A"
  ∧ e !! "location" = Some location
  ∧ (∃ link, e !! "link" = Some link
       ∧ (link = wellfound_url g location
          ∨ ∃ href, link = "https://wellfound.com" +:+ href))
  ∧ passes g e.

(** The columns of the report, in order. *)
Definition report_columns : list string :=
  ["title"; "company"; "salary"; "link"; "source"; "location"].

(** The table of the report: one row for each record, in order, with the
    record's values for the columns of the report. *)
Definition report_frame (results : list posting) : DataFrame :=
  {| columns := report_columns;
     rows := (λ e : posting, (λ c, e !! c) <$> report_columns) <$> results |}.

(** Mail is configured: the four fields are set and not empty. *)
Definition configured (E : environment) (host user pass to : string)
    : Prop :=
  (getenv E "EMAIL_SMTP_HOST" = Some host ∧ host ≠ "")
  ∧ (getenv E "EMAIL_USER" = Some user ∧ user ≠ "")
  ∧ (getenv E "EMAIL_PASS" = Some pass ∧ pass ≠ "")
  ∧ (getenv E "EMAIL_TO" = Some to ∧ to ≠ "").

(** The port the notifier connects to: the value of the variable read as
    an integer, 587 when the variable is unset. *)
Definition port_is (E : environment) (port : Z) : Prop :=
  match getenv E "EMAIL_SMTP_PORT" with
  | Some s => Str.int_parse s = Some port
  | None => port = 587
  end.

(** The [email] package takes the three headers and the body. *)
Definition composes (E : environment) (subject user to body : string)
    : Prop :=
  email_refuses E (SetHeader "Subject" subject) = None
  ∧ email_refuses E (SetHeader "From" user) = None
  ∧ email_refuses E (SetHeader "To" to) = None
  ∧ email_refuses E (SetContent body) = None.

(** The [email] package takes as an attachment each file of [paths] that
    is on disk. *)
Definition attaches (E : environment) (fs : gmap string string)
    (paths : list string) : Prop :=
  ∀ path data, path ∈ paths → fs !! path = Some data →
    email_refuses E (AddAttachment (basename path) data) = None.

(** The attachments of the message for the files at [paths]. *)
Definition attachments_of (fs : gmap string string) (paths : list string)
    : list (string * string) :=
  (λ path, (basename path, default "" (fs !! path))) <$> paths.

(** A network event that carries the credentials or the message. *)
Definition after_tls (ev : net_event) : Prop :=
  match ev with
  | SmtpLogin _ _ | SmtpSend _ => True
  | _ => False
  end.

(** An environment with mail configured, no port set, and a server that
    accepts everything. *)
Definition mail_environment : environment :=
  sample_environment
    {[ "EMAIL_SMTP_HOST" := "smtp.example.com"; "EMAIL_USER" := "me";
       "EMAIL_PASS" := "secret"; "EMAIL_TO" := "a@example.com" ]}
    (λ _, Raised ConnectionError).

(** The same with a server that refuses to start TLS. *)
Definition no_tls_environment : environment :=
  Environment (environ mail_environment) (http mail_environment)
    (λ _ _, None) (Some SMTPException) (λ _ _, None) (λ _, None)
    (λ _, None).

(** The two report files. *)
Definition report_files : gmap string string :=
  {[ "jobs.csv" := "csv"; "jobs.html" := "html" ]}.

(** A record built by one of the two adapters for one of [locations]. *)
Definition adapter_record (g : globals) (locations : list string)
    (e : posting) : Prop :=
  ∃ location, location ∈ locations
    ∧ (indeed_record g location e ∨ wellfound_record g location e).

(** The requests of a run over [locations], in the order they are sent. *)
Definition requests_of (g : globals) (locations : list string)
    : list net_event :=
  concat ((λ location,
             [HttpGet (indeed_url g location) (HEADERS g) 15;
              HttpGet (wellfound_url g location) (HEADERS g) 15])
          <$> locations).

(** The world after [save_results] has written the report of [results]. *)
Definition after_report (to_csv to_html : DataFrame → string)
    (results : list posting) (w : world) : world :=
  World (stdout w
         ++ ["Saved " +:+ Str.str_of_int (Z.of_nat (length results))
             +:+ " jobs to jobs.csv and jobs.html"])
        (<["jobs.html" := to_html (report_frame results)]>
           (<["jobs.csv" := to_csv (report_frame results)]> (files w)))
        (network w) (slept w).

(** The records the Indeed adapter builds from [indeed_page] when the
    search is for [location]. *)
Definition indeed_page_records (location : string) : list posting :=
  [list_to_map
     [("title", "Junior Web Developer"); ("company", "Acme");
      ("location", "Pune"); ("salary", "N/A");
      ("link", "https://www.indeed.com/rc/clk?jk=1");
      ("source", "Indeed"); ("summary", "Entry level")];
   list_to_map
     [("title", "N/A"); ("company", "Graduate Recruiters Ltd");
      ("location", location); ("salary", "N/A");
      ("link", indeed_url module_globals location);
      ("source", "Indeed"); ("summary", "")]].

(** Every request is answered with [indeed_page]. *)
Definition indeed_environment : environment :=
  sample_environment ∅ (λ _, Returned indeed_page).

(** The world before the script starts. *)
Definition initial_world (fs : gmap string string) : world :=
  World [] fs [] 0.

(** ** Strings: facts *)

Module StrFacts.
Import Str.

Lemma app_cons a s t : String a s +:+ t = String a (s +:+ t).
Proof. reflexivity. Qed.

Lemma app_empty_l s : EmptyString +:+ s = s.
Proof. reflexivity. Qed.

Lemma app_assoc' s t u : (s +:+ t) +:+ u = s +:+ t +:+ u.
Proof. induction s as [|a s IH]; [done|]. by rewrite !app_cons, IH. Qed.

Lemma startswith_spec k t :
  startswith k t = true ↔ ∃ post, t = k +:+ post.
Proof.
  revert t. induction k as [|a k IH]; intros t; simpl.
  - split; [intros _; by exists t | done].
  - destruct t as [|b t].
    + split; [done | intros [post Hp]; discriminate Hp].
    + rewrite andb_true_iff, bool_decide_eq_true, IH. split.
      * intros [-> [post ->]]. by exists post.
      * intros [post Hp]. rewrite app_cons in Hp.
        injection Hp as -> ->. eauto.
Qed.

(** [k in t] holds exactly when [t] splits around an occurrence of [k]. *)
Lemma str_in_spec k t :
  str_in k t = true ↔ ∃ pre post, t = pre +:+ k +:+ post.
Proof.
  induction t as [|b t IH]; simpl; rewrite orb_true_iff, startswith_spec.
  - split.
    + intros [[post Hp]|?]; [|done]. by exists EmptyString, post.
    + intros (pre & post & Hp). left. destruct pre as [|c pre].
      * by exists post.
      * discriminate Hp.
  - rewrite IH. split.
    + intros [[post Hp]|(pre & post & ->)].
      * by exists EmptyString, post.
      * by exists (String b pre), post.
    + intros (pre & post & Hp). destruct pre as [|c pre].
      * left. by exists post.
      * right. rewrite app_cons in Hp. injection Hp as _ ->.
        by exists pre, post.
Qed.

Lemma lower_app s t : lower (s +:+ t) = lower s +:+ lower t.
Proof.
  induction s as [|a s IH]; [done|].
  rewrite app_cons. simpl. by rewrite IH.
Qed.

Lemma lower_app_inv t a b :
  lower t = a +:+ b →
  ∃ t1 t2, t = t1 +:+ t2 ∧ lower t1 = a ∧ lower t2 = b.
Proof.
  revert t. induction a as [|c a IH]; intros t Ht.
  - by exists EmptyString, t.
  - destruct t as [|d t]; [discriminate Ht|].
    rewrite app_cons in Ht. simpl in Ht. injection Ht as Hc Ht.
    destruct (IH _ Ht) as (t1 & t2 & -> & <- & <-).
    exists (String d t1), t2. by rewrite <- Hc.
Qed.

Lemma N_of_ascii_inj a b : N_of_ascii a = N_of_ascii b → a = b.
Proof.
  intros H. rewrite <- (ascii_N_embedding a), <- (ascii_N_embedding b).
  by rewrite H.
Qed.

Lemma lower_char_capital c :
  is_capital c → N_of_ascii (lower_char c) = (N_of_ascii c + 32)%N.
Proof.
  unfold is_capital, lower_char. intros [H1 H2].
  apply N.leb_le in H1 as H1'. apply N.leb_le in H2 as H2'.
  rewrite H1', H2'. simpl. apply N_ascii_embedding. lia.
Qed.

Lemma lower_char_other c : ¬ is_capital c → lower_char c = c.
Proof.
  unfold is_capital, lower_char. intros H.
  destruct (65 <=? N_of_ascii c)%N eqn:H1; [|done].
  destruct (N_of_ascii c <=? 90)%N eqn:H2; [|done].
  apply N.leb_le in H1, H2. lia.
Qed.

Lemma is_capital_dec c : is_capital c ∨ ¬ is_capital c.
Proof. unfold is_capital. lia. Qed.

Lemma lower_char_idem c : lower_char (lower_char c) = lower_char c.
Proof.
  destruct (is_capital_dec c) as [Hc|Hc].
  - apply lower_char_other. pose proof (lower_char_capital c Hc).
    unfold is_capital in *. lia.
  - by rewrite !(lower_char_other c).
Qed.

Lemma lower_idem s : lower (lower s) = lower s.
Proof.
  induction s as [|c s IH]; [done|]. simpl.
  by rewrite lower_char_idem, IH.
Qed.

(** Agreement up to case is agreement after [lower]. *)
Lemma same_letter_lower a b :
  same_letter a b ↔ lower_char a = lower_char b.
Proof.
  unfold same_letter. split.
  - intros [->|[[Ha Hb]|[Hb Ha]]]; [done| |].
    + apply N_of_ascii_inj. rewrite lower_char_capital by done.
      rewrite lower_char_other; [done|]. unfold is_capital in *. lia.
    + apply N_of_ascii_inj. rewrite (lower_char_capital b) by done.
      rewrite lower_char_other; [done|]. unfold is_capital in *. lia.
  - intros H. apply (f_equal N_of_ascii) in H.
    destruct (is_capital_dec a) as [Ha|Ha], (is_capital_dec b) as [Hb|Hb].
    + rewrite !lower_char_capital in H by done.
      left. apply N_of_ascii_inj. lia.
    + rewrite lower_char_capital, (lower_char_other b) in H by done.
      right. left. by split.
    + rewrite (lower_char_other a), lower_char_capital in H by done.
      right. right. by split.
    + rewrite !lower_char_other in H by done.
      left. by apply N_of_ascii_inj.
Qed.

Lemma same_ignoring_case_lower s t :
  same_ignoring_case s t ↔ lower s = lower t.
Proof.
  split.
  - induction 1 as [|a b s t Hab _ IH]; [done|]. simpl.
    apply same_letter_lower in Hab. by rewrite Hab, IH.
  - revert t. induction s as [|a s IH]; intros [|b t] H;
      try discriminate H; [constructor|].
    simpl in H. injection H as Hab H. constructor; [|by apply IH].
    by apply same_letter_lower.
Qed.

(** For a keyword written in lower case, [k in text.lower()] says that
    [text] contains [k] ignoring case. *)
Lemma str_in_lower k text :
  lower k = k →
  str_in k (lower text) = true ↔ contains_ignoring_case text k.
Proof.
  intros Hk. rewrite str_in_spec. unfold contains_ignoring_case. split.
  - intros (pre & post & H).
    apply lower_app_inv in H as (t1 & t2 & -> & _ & H).
    apply lower_app_inv in H as (mid & t3 & -> & H & _).
    exists t1, mid, t3. split; [done|].
    apply same_ignoring_case_lower. by rewrite Hk.
  - intros (pre & mid & post & -> & H).
    apply same_ignoring_case_lower in H. rewrite Hk in H.
    exists (lower pre), (lower post). by rewrite !lower_app, H.
Qed.

End StrFacts.


(** ** Matcher: facts *)

Lemma matches_experience_lower g text :
  matches_experience g (Str.lower text) = matches_experience g text.
Proof. unfold matches_experience. by rewrite StrFacts.lower_idem. Qed.

(** With keywords written in lower case, the matcher answers whether the
    text contains one of them ignoring case. *)
Lemma matches_experience_iff g text :
  Forall (λ k, Str.lower k = k) (EXPERIENCE_KEYWORDS g) →
  matches_experience g text = true ↔
  ∃ k, k ∈ EXPERIENCE_KEYWORDS g ∧ contains_ignoring_case text k.
Proof.
  intros Hlow. unfold matches_experience, Str.any.
  rewrite existsb_exists. rewrite Forall_forall in Hlow.
  split; intros (k & Hk & H); exists k.
  - apply list_elem_of_In in Hk.
    split; [done|]. apply StrFacts.str_in_lower; auto.
  - split; [by apply list_elem_of_In|].
    apply StrFacts.str_in_lower; auto.
Qed.

(** C2. For every text that contains one of the configured entry-level
    keywords (junior, entry level, entry-level, graduate, intern) as a
    substring, ignoring case and at any position, [matches_experience]
    returns true; for every text that contains none of them it returns
    false. *)
Theorem matches_experience_keywords (text : string) :
  let keywords :=
    ["junior"; "entry level"; "entry-level"; "graduate"; "intern"] in
  ((∃ k, k ∈ keywords ∧ contains_ignoring_case text k) →
   matches_experience module_globals text = true)
  ∧ ((∀ k, k ∈ keywords → ¬ contains_ignoring_case text k) →
     matches_experience module_globals text = false).
Proof.
  assert (Hlow : Forall (λ k, Str.lower k = k)
                   (EXPERIENCE_KEYWORDS module_globals))
    by (repeat constructor).
  pose proof (matches_experience_iff module_globals text Hlow) as Hiff.
  simpl in *. split.
  - intros H. by apply Hiff.
  - intros Hnone. apply not_true_is_false. intros Htrue.
    apply Hiff in Htrue as (k & Hk & Hc). by apply (Hnone k).
Qed.

Example matches_experience_examples :
  matches_experience module_globals "Junior Web Developer" = true
  ∧ matches_experience module_globals "ENTRY-LEVEL analyst" = true
  ∧ matches_experience module_globals "International sales" = true
  ∧ matches_experience module_globals "Senior Architect" = false.
Proof. repeat split; reflexivity. Qed.

(** ** Consolidator: facts *)

(** The scenarios of the specification: of two records with one link the
    first is kept; a record that fails the filter is dropped. *)
Example consolidate_and_filter_examples :
  consolidate_and_filter module_globals
    [sample_posting "Junior Web Developer" "" "https://x/a";
     sample_posting "Graduate Engineer" "" "https://x/a"]
  = Returned [sample_posting "Junior Web Developer" "" "https://x/a"]
  ∧ consolidate_and_filter module_globals
      [sample_posting "Junior Web Developer" "" "https://x/a";
       sample_posting "Senior Architect" "" "https://x/b"]
    = Returned [sample_posting "Junior Web Developer" "" "https://x/a"].
Proof. split; vm_compute; reflexivity. Qed.

(** The text that is tested has a space between title and summary: a
    keyword may span the two, and the two run together may spell a keyword
    that the text does not contain. *)
Example entry_text_separator :
  matches_experience module_globals
    (entry_text (sample_posting "Entry" "level role" "https://x/a")) = true
  ∧ matches_experience module_globals ("Entry" +:+ "level role") = false
  ∧ matches_experience module_globals
      (entry_text (sample_posting "Jun" "ior role" "https://x/a")) = false
  ∧ matches_experience module_globals ("Jun" +:+ "ior role") = true.
Proof. repeat split; vm_compute; reflexivity. Qed.

(** A record without a link makes the consolidator raise. *)
Example consolidate_and_filter_no_link :
  consolidate_and_filter module_globals [{[ "title" := "Junior" ]}]
  = Raised (KeyError "link").
Proof. reflexivity. Qed.

Lemma first_with_link_cons_eq l (e : posting) entries :
  e !! "link" = Some l → first_with_link l (e :: entries) = Some e.
Proof.
  intros H. unfold first_with_link. simpl.
  by rewrite bool_decide_eq_true_2.
Qed.

Lemma first_with_link_cons_ne l (e : posting) entries :
  e !! "link" ≠ Some l →
  first_with_link l (e :: entries) = first_with_link l entries.
Proof.
  intros H. unfold first_with_link. simpl.
  by rewrite bool_decide_eq_false_2.
Qed.

Lemma for_each_cons {A S} (body : S → A → outcome S) x l s :
  for_each body (x :: l) s = body s x ≫= for_each body l.
Proof. reflexivity. Qed.

Lemma bind_returned {A B} (a : A) (f : A → outcome B) :
  Returned a ≫= f = f a.
Proof. reflexivity. Qed.

(** The three ways through the body of the loop. *)
Lemma consolidate_step_seen g seen filtered (e : posting) l :
  e !! "link" = Some l → l ∈ seen →
  consolidate_step g (seen, filtered) e = Returned (seen, filtered).
Proof.
  intros He Hl. unfold consolidate_step, dict_item. rewrite He.
  rewrite bind_returned. by rewrite bool_decide_eq_true_2.
Qed.

Lemma consolidate_step_keep g seen filtered (e : posting) l :
  e !! "link" = Some l → l ∉ seen → passes g e →
  consolidate_step g (seen, filtered) e
  = Returned ({[l]} ∪ seen, filtered ++ [e]).
Proof.
  intros He Hl Hp. unfold consolidate_step, dict_item. rewrite He.
  rewrite bind_returned, bool_decide_eq_false_2 by done.
  by rewrite matches_experience_lower, Hp.
Qed.

Lemma consolidate_step_drop g seen filtered (e : posting) l :
  e !! "link" = Some l → l ∉ seen → ¬ passes g e →
  consolidate_step g (seen, filtered) e = Returned ({[l]} ∪ seen, filtered).
Proof.
  intros He Hl Hp. unfold consolidate_step, dict_item. rewrite He.
  rewrite bind_returned, bool_decide_eq_false_2 by done.
  rewrite matches_experience_lower.
  by apply not_true_is_false in Hp as ->.
Qed.

Lemma consolidate_step_no_link g st (e : posting) :
  e !! "link" = None →
  consolidate_step g st e = Raised (KeyError "link").
Proof.
  intros He. destruct st. unfold consolidate_step, dict_item. by rewrite He.
Qed.

Lemma passes_dec g e : passes g e ∨ ¬ passes g e.
Proof. unfold passes. destruct (matches_experience g _); auto. Qed.

(** What the loop has done when it ends: the invariant of the loop,
    stated for a run that starts from any [seen] and [filtered]. *)
Lemma consolidate_loop g entries seen filtered st :
  for_each (consolidate_step g) entries (seen, filtered) = Returned st →
  ∃ kept,
    st.2 = filtered ++ kept
    ∧ kept `sublist_of` entries
    ∧ NoDup (links kept)
    ∧ ∀ e, e ∈ kept →
        ∃ l, e !! "link" = Some l ∧ (l ∉ seen)
             ∧ first_with_link l entries = Some e ∧ passes g e.
Proof.
  revert seen filtered.
  induction entries as [|x entries IH]; intros seen filtered Hrun.
  - injection Hrun as <-. exists []. simpl. rewrite app_nil_r.
    repeat split; [constructor | constructor | intros e He; inversion He].
  - rewrite for_each_cons in Hrun.
    destruct (x !! "link") as [lx|] eqn:Hx;
      [|by rewrite consolidate_step_no_link in Hrun].
    destruct (decide (lx ∈ seen)) as [Hseen|Hseen].
    + (* the link was seen: the record is skipped *)
      rewrite (consolidate_step_seen _ _ _ _ lx), bind_returned in Hrun
        by done.
      apply IH in Hrun as (kept & Hst & Hsub & Hnd & Hall).
      exists kept. repeat split; [done | by constructor | done |].
      intros e He. destruct (Hall e He) as (l & Hl & Hns & Hf & Hp).
      exists l. repeat split; try done.
      rewrite first_with_link_cons_ne; [done|]. congruence.
    + destruct (passes_dec g x) as [Hpass|Hpass].
      * (* a new link whose record passes: the record is kept *)
        rewrite (consolidate_step_keep _ _ _ _ lx), bind_returned in Hrun
          by done.
        apply IH in Hrun as (kept & Hst & Hsub & Hnd & Hall).
        exists (x :: kept). split; [by rewrite Hst, <- app_assoc|].
        split; [by constructor|]. split.
        { unfold links. rewrite fmap_cons. apply NoDup_cons. split; [|done].
          intros Hin. apply list_elem_of_fmap in Hin as (e & He & Hin).
          destruct (Hall e Hin) as (l & Hl & Hns & _).
          rewrite Hx, Hl in He. injection He as ->. set_solver. }
        intros e He. apply elem_of_cons in He as [->|He].
        { exists lx. repeat split; try done.
          by apply first_with_link_cons_eq. }
        destruct (Hall e He) as (l & Hl & Hns & Hf & Hp).
        exists l. repeat split; try done; [set_solver|].
        rewrite first_with_link_cons_ne; [done|].
        rewrite Hx. intros [= ->]. set_solver.
      * (* a new link whose record fails: dropped, the link stays seen *)
        rewrite (consolidate_step_drop _ _ _ _ lx), bind_returned in Hrun
          by done.
        apply IH in Hrun as (kept & Hst & Hsub & Hnd & Hall).
        exists kept. repeat split; [done | by constructor | done |].
        intros e He. destruct (Hall e He) as (l & Hl & Hns & Hf & Hp).
        exists l. repeat split; try done; [set_solver|].
        rewrite first_with_link_cons_ne; [done|].
        rewrite Hx. intros [= ->]. set_solver.
Qed.

(** The loop raises only on a record without a link. *)
Lemma consolidate_loop_returns g entries seen filtered :
  Forall has_link entries →
  ∃ st, for_each (consolidate_step g) entries (seen, filtered) = Returned st.
Proof.
  intros Hall. revert seen filtered.
  induction Hall as [|x entries [lx Hx] _ IH]; intros seen filtered.
  - by eexists.
  - rewrite for_each_cons.
    destruct (decide (lx ∈ seen)) as [Hseen|Hseen].
    + rewrite (consolidate_step_seen _ _ _ _ lx) by done. apply IH.
    + destruct (passes_dec g x) as [Hpass|Hpass].
      * rewrite (consolidate_step_keep _ _ _ _ lx) by done. apply IH.
      * rewrite (consolidate_step_drop _ _ _ _ lx) by done. apply IH.
Qed.

(** On a list with distinct, unseen links whose records all pass, the
    loop keeps every record. *)
Lemma consolidate_loop_fixed g kept seen filtered :
  NoDup (links kept) →
  (∀ e, e ∈ kept → ∃ l, e !! "link" = Some l ∧ (l ∉ seen) ∧ passes g e) →
  ∃ seen',
    for_each (consolidate_step g) kept (seen, filtered)
    = Returned (seen', filtered ++ kept).
Proof.
  revert seen filtered.
  induction kept as [|x kept IH]; intros seen filtered Hnd Hall.
  - exists seen. simpl. by rewrite app_nil_r.
  - destruct (Hall x) as (lx & Hx & Hns & Hp); [by left|].
    unfold links in Hnd. rewrite fmap_cons in Hnd.
    apply NoDup_cons in Hnd as [Hnin Hnd].
    rewrite for_each_cons, (consolidate_step_keep _ _ _ _ lx) by done.
    rewrite bind_returned.
    destruct (IH ({[lx]} ∪ seen) (filtered ++ [x]) Hnd) as [seen' H].
    + intros e He. destruct (Hall e) as (l & Hl & Hnl & Hpe); [by right|].
      exists l. repeat split; try done.
      assert (l ≠ lx) as Hne;
        [|apply not_elem_of_union; split;
          [by apply not_elem_of_singleton | done]].
      intros Heq. subst l. apply Hnin. rewrite Hx.
      apply list_elem_of_fmap. by exists e.
    + exists seen'. by rewrite H, <- app_assoc.
Qed.

Lemma first_with_link_app l pre rest :
  (∀ e : posting, e ∈ pre → e !! "link" ≠ Some l) →
  first_with_link l (pre ++ rest) = first_with_link l rest.
Proof.
  induction pre as [|x pre IH]; intros Hpre; [done|].
  rewrite <- app_comm_cons, first_with_link_cons_ne.
  - apply IH. intros e He. apply Hpre. by right.
  - apply Hpre. by left.
Qed.

(** The consolidator returns on records that carry a link, and what it
    returns is what the loop kept from the empty state. *)
Lemma consolidate_and_filter_returns g entries :
  Forall has_link entries →
  ∃ out,
    consolidate_and_filter g entries = Returned out
    ∧ out `sublist_of` entries
    ∧ NoDup (links out)
    ∧ ∀ e, e ∈ out →
        ∃ l, e !! "link" = Some l
             ∧ first_with_link l entries = Some e ∧ passes g e.
Proof.
  intros Hall.
  destruct (consolidate_loop_returns g entries ∅ [] Hall) as [st Hst].
  destruct (consolidate_loop _ _ _ _ _ Hst) as (kept & Hk & Hsub & Hnd & Hin).
  exists kept. unfold consolidate_and_filter. rewrite Hst, bind_returned.
  simpl in Hk. rewrite Hk. repeat split; try done.
  intros e He. destruct (Hin e He) as (l & ? & _ & ? & ?). by exists l.
Qed.

(** C1. For every input list of postings, the output of
    [consolidate_and_filter] contains no two records sharing the same
    link; a record that is kept is the first one of the input with its
    link, and the kept records stand in the order they have in the input;
    and every kept record satisfies [matches_experience] on the text made
    of its title and its summary. *)
Theorem consolidate_and_filter_spec g entries :
  Forall has_link entries →
  ∃ out,
    consolidate_and_filter g entries = Returned out
    ∧ NoDup (links out)
    ∧ (∀ e l, e ∈ out → e !! "link" = Some l →
         first_with_link l entries = Some e)
    ∧ out `sublist_of` entries
    ∧ Forall (λ e, matches_experience g (entry_text e) = true) out.
Proof.
  intros Hall.
  destruct (consolidate_and_filter_returns g entries Hall)
    as (out & Hout & Hsub & Hnd & Hin).
  exists out. repeat split; try done.
  - intros e l He Hl. destruct (Hin e He) as (l' & Hl' & Hf & _).
    congruence.
  - apply Forall_forall. intros e He.
    by destruct (Hin e He) as (_ & _ & _ & Hp).
Qed.

Lemma consolidate_and_filter_spec_witness :
  ∃ out,
    consolidate_and_filter module_globals
      [sample_posting "Senior Architect" "" "https://x/b";
       sample_posting "Junior Web Developer" "" "https://x/a";
       sample_posting "Graduate Engineer" "" "https://x/a";
       sample_posting "Staff" "internship" "https://x/c"] = Returned out
    ∧ NoDup (links out)
    ∧ (∀ e l, e ∈ out → e !! "link" = Some l →
         first_with_link l
           [sample_posting "Senior Architect" "" "https://x/b";
            sample_posting "Junior Web Developer" "" "https://x/a";
            sample_posting "Graduate Engineer" "" "https://x/a";
            sample_posting "Staff" "internship" "https://x/c"] = Some e)
    ∧ out `sublist_of`
        [sample_posting "Senior Architect" "" "https://x/b";
         sample_posting "Junior Web Developer" "" "https://x/a";
         sample_posting "Graduate Engineer" "" "https://x/a";
         sample_posting "Staff" "internship" "https://x/c"]
    ∧ Forall (λ e, matches_experience module_globals (entry_text e) = true)
        out.
Proof.
  apply (consolidate_and_filter_spec module_globals).
  repeat constructor; by eexists.
Defined.

(** C5. [consolidate_and_filter] is idempotent: applied to its own output
    it returns that output again, so in particular the same links. *)
Theorem consolidate_and_filter_idempotent g entries :
  Forall has_link entries →
  ∃ out,
    consolidate_and_filter g entries = Returned out
    ∧ consolidate_and_filter g out = Returned out.
Proof.
  intros Hall.
  destruct (consolidate_and_filter_returns g entries Hall)
    as (out & Hout & Hsub & Hnd & Hin).
  exists out. split; [done|].
  destruct (consolidate_loop_fixed g out ∅ [] Hnd) as [seen' Hrun].
  - intros e He. destruct (Hin e He) as (l & Hl & _ & Hp).
    exists l. repeat split; done.
  - unfold consolidate_and_filter. by rewrite Hrun, bind_returned.
Qed.

Lemma consolidate_and_filter_idempotent_witness :
  ∃ out,
    consolidate_and_filter module_globals
      [sample_posting "Junior Web Developer" "" "https://x/a";
       sample_posting "Senior Architect" "" "https://x/b";
       sample_posting "Intern" "" "https://x/a"] = Returned out
    ∧ consolidate_and_filter module_globals out = Returned out.
Proof.
  apply (consolidate_and_filter_idempotent module_globals).
  repeat constructor; by eexists.
Defined.

(** C9. Links are deduplicated before the experience filter is applied:
    when the first record of the input with link [L] fails
    [matches_experience] on its title and summary and a later record with
    the same link passes it, no record with link [L] is in the output. *)
Theorem dedup_before_filter g pre first mid later post L :
  Forall has_link (pre ++ first :: mid ++ later :: post) →
  (∀ e : posting, e ∈ pre → e !! "link" ≠ Some L) →
  first !! "link" = Some L → ¬ passes g first →
  later !! "link" = Some L → passes g later →
  ∃ out,
    consolidate_and_filter g (pre ++ first :: mid ++ later :: post)
    = Returned out
    ∧ ∀ e : posting, e ∈ out → e !! "link" ≠ Some L.
Proof.
  intros Hall Hpre Hfirst Hfail _ _.
  destruct (consolidate_and_filter_returns g _ Hall)
    as (out & Hout & _ & _ & Hin).
  exists out. split; [done|]. intros e He HL.
  destruct (Hin e He) as (l & Hl & Hf & Hp).
  assert (l = L) as -> by congruence.
  rewrite first_with_link_app in Hf by done.
  rewrite first_with_link_cons_eq in Hf by done.
  injection Hf as ->. by apply Hfail.
Qed.

Lemma dedup_before_filter_witness :
  ∃ out,
    consolidate_and_filter module_globals
      ([sample_posting "Intern" "" "https://x/b"]
       ++ sample_posting "Senior Architect" "" "https://x/a"
       :: [] ++ sample_posting "Junior Architect" "" "https://x/a" :: [])
    = Returned out
    ∧ ∀ e : posting, e ∈ out → e !! "link" ≠ Some "https://x/a".
Proof.
  apply (dedup_before_filter module_globals
           [sample_posting "Intern" "" "https://x/b"]
           (sample_posting "Senior Architect" "" "https://x/a") []
           (sample_posting "Junior Architect" "" "https://x/a") []).
  - repeat constructor; by eexists.
  - intros e He. apply list_elem_of_singleton in He as ->. by vm_compute.
  - reflexivity.
  - unfold passes. by vm_compute.
  - reflexivity.
  - unfold passes. by vm_compute.
Defined.

(** ** Work modes *)

(** The work-mode vocabulary does decide [matches_work_mode]. *)
Example matches_work_mode_depends :
  matches_work_mode (with_work_modes module_globals ["remote"]) "Remote role"
  = true
  ∧ matches_work_mode (with_work_modes module_globals []) "Remote role"
    = false.
Proof. split; reflexivity. Qed.

(** C8. [matches_work_mode] is called by no adapter, nor by the
    consolidator or the reporter: the records of the adapters, the output
    of [consolidate_and_filter] and the whole run of [main] are the same
    for any two work-mode vocabularies. *)
Theorem work_modes_inert (to_csv to_html : DataFrame → string)
    (g : globals) (modes1 modes2 : list string) (E : environment)
    (location : string) (entries : list posting) :
  parse_indeed (with_work_modes g modes1) E location
  = parse_indeed (with_work_modes g modes2) E location
  ∧ parse_wellfound (with_work_modes g modes1) E location
    = parse_wellfound (with_work_modes g modes2) E location
  ∧ consolidate_and_filter (with_work_modes g modes1) entries
    = consolidate_and_filter (with_work_modes g modes2) entries
  ∧ main to_csv to_html (with_work_modes g modes1) E
    = main to_csv to_html (with_work_modes g modes2) E.
Proof. repeat split; reflexivity. Qed.

(** ** Source adapters: facts *)

Lemma requests_get_run E url headers timeout w :
  requests_get E url headers timeout w
  = (http E url,
     World (stdout w) (files w)
           (network w ++ [HttpGet url headers timeout]) (slept w)).
Proof. reflexivity. Qed.

(** An exception of the request leaves the adapter as it is. *)
Lemma parse_indeed_raises g E location w e :
  http E (indeed_url g location) = Raised e →
  (parse_indeed g E location w).1 = Raised e.
Proof.
  intros H. unfold parse_indeed, mbind, M_bind.
  by rewrite requests_get_run, H.
Qed.

Lemma parse_wellfound_raises g E location w e :
  http E (wellfound_url g location) = Raised e →
  (parse_wellfound g E location w).1 = Raised e.
Proof.
  intros H. unfold parse_wellfound, mbind, M_bind.
  by rewrite requests_get_run, H.
Qed.

Lemma parse_indeed_status g E location r w :
  http E (indeed_url g location) = Returned r →
  status_code r ≠ 200 →
  parse_indeed g E location w
  = (Returned [],
     after_failed_fetch "Indeed" (indeed_url g location) (HEADERS g)
       (status_code r) w).
Proof.
  intros H Hs. unfold parse_indeed, mbind, M_bind.
  rewrite requests_get_run, H.
  by rewrite bool_decide_eq_true_2.
Qed.

Lemma parse_wellfound_status g E location r w :
  http E (wellfound_url g location) = Returned r →
  status_code r ≠ 200 →
  parse_wellfound g E location w
  = (Returned [],
     after_failed_fetch "Wellfound" (wellfound_url g location) (HEADERS g)
       (status_code r) w).
Proof.
  intros H Hs. unfold parse_wellfound, mbind, M_bind.
  rewrite requests_get_run, H.
  by rewrite bool_decide_eq_true_2.
Qed.

(** On a page that was fetched, the Indeed adapter returns: no card makes
    it raise. *)
Lemma parse_indeed_returns g E location r w :
  http E (indeed_url g location) = Returned r →
  ∃ results w', parse_indeed g E location w = (Returned results, w').
Proof.
  intros H. unfold parse_indeed, mbind, M_bind.
  rewrite requests_get_run, H.
  case_bool_decide; by eexists _, _.
Qed.

(** An Indeed card with none of the expected elements: every field gets
    its default. *)
Lemma indeed_card_defaults g location url results card :
  (∀ sel, select card sel = []) →
  indeed_card g location url results card
  = if matches_experience g "N/A " || matches_experience g "N/A"
    then results ++ [list_to_map
           [("title", "N/A"); ("company", "N/A"); ("location", location);
            ("salary", "N/A"); ("link", url); ("source", "Indeed");
            ("summary", "")]]
    else results.
Proof.
  intros Hnone. unfold indeed_card, select_one. by rewrite !Hnone.
Qed.

Lemma main_step_indeed_failed g E entries location r w found w' :
  http E (indeed_url g location) = Returned r →
  status_code r ≠ 200 →
  parse_wellfound g E location
    (after_failed_fetch "Indeed" (indeed_url g location) (HEADERS g)
       (status_code r) w) = (Returned found, w') →
  (main_step g E entries location w).1 = Returned (entries ++ found).
Proof.
  intros H Hs Hw. unfold main_step, mbind, M_bind.
  rewrite (parse_indeed_status _ _ _ r), Hw by done. simpl.
  by rewrite !app_nil_r.
Qed.

Lemma main_step_wellfound_failed g E entries location r w found w' :
  http E (wellfound_url g location) = Returned r →
  status_code r ≠ 200 →
  parse_indeed g E location w = (Returned found, w') →
  (main_step g E entries location w).1 = Returned (entries ++ found).
Proof.
  intros H Hs Hw. unfold main_step, mbind, M_bind.
  rewrite Hw, (parse_wellfound_status _ _ _ r) by done. simpl.
  by rewrite !app_nil_r.
Qed.

(** C3, as the code has it. When the request of an active adapter is
    answered with a status other than 200, the adapter logs the failure
    and returns the empty list without raising, and the aggregator goes on:
    the step for that location returns the records of the other adapter.
    (A timeout or a network error is not a response: the request raises,
    and nothing in the adapter catches it.) *)
Theorem fetch_status_failure g E location r w :
  status_code r ≠ 200 →
  (http E (indeed_url g location) = Returned r →
   parse_indeed g E location w
   = (Returned [],
      after_failed_fetch "Indeed" (indeed_url g location) (HEADERS g)
        (status_code r) w)
   ∧ ∀ entries found w',
       parse_wellfound g E location
         (after_failed_fetch "Indeed" (indeed_url g location) (HEADERS g)
            (status_code r) w) = (Returned found, w') →
       (main_step g E entries location w).1 = Returned (entries ++ found))
  ∧ (http E (wellfound_url g location) = Returned r →
     parse_wellfound g E location w
     = (Returned [],
        after_failed_fetch "Wellfound" (wellfound_url g location) (HEADERS g)
          (status_code r) w)
     ∧ ∀ entries found w0 w',
         parse_indeed g E location w0 = (Returned found, w') →
         (main_step g E entries location w0).1 = Returned (entries ++ found)).
Proof.
  intros Hs. split; intros H; split.
  - by apply parse_indeed_status.
  - intros entries found w'. by apply main_step_indeed_failed.
  - by apply parse_wellfound_status.
  - intros entries found w0 w'. by apply main_step_wellfound_failed with r.
Qed.

Lemma fetch_status_failure_witness :
  let g := module_globals in
  let E := status_environment 503 in
  let r := Response 503 (leaf [] ∅) in
  let w := initial_world ∅ in
  (http E (indeed_url g "India") = Returned r →
   parse_indeed g E "India" w
   = (Returned [],
      after_failed_fetch "Indeed" (indeed_url g "India") (HEADERS g)
        (status_code r) w)
   ∧ ∀ entries found w',
       parse_wellfound g E "India"
         (after_failed_fetch "Indeed" (indeed_url g "India") (HEADERS g)
            (status_code r) w) = (Returned found, w') →
       (main_step g E entries "India" w).1 = Returned (entries ++ found))
  ∧ (http E (wellfound_url g "India") = Returned r →
     parse_wellfound g E "India" w
     = (Returned [],
        after_failed_fetch "Wellfound" (wellfound_url g "India") (HEADERS g)
          (status_code r) w)
     ∧ ∀ entries found w0 w',
         parse_indeed g E "India" w0 = (Returned found, w') →
         (main_step g E entries "India" w0).1 = Returned (entries ++ found)).
Proof.
  apply (fetch_status_failure module_globals (status_environment 503)
           "India" (Response 503 (leaf [] ∅)) (initial_world ∅)).
  simpl. lia.
Defined.

(** The claim of C3 fails for a timeout: the request raises, the adapter
    logs nothing and does not return, and the run ends there. *)
Lemma fetch_timeout_propagates :
  (parse_indeed module_globals timeout_environment "India"
     (initial_world ∅)).1 = Raised Timeout
  ∧ stdout (parse_indeed module_globals timeout_environment "India"
              (initial_world ∅)).2 = []
  ∧ (parse_wellfound module_globals timeout_environment "India"
       (initial_world ∅)).1 = Raised Timeout
  ∧ (main (λ _, EmptyString) (λ _, EmptyString) module_globals
       timeout_environment (initial_world ∅)).1 = Raised Timeout.
Proof. repeat split; vm_compute; reflexivity. Qed.

(** C4 at a Wellfound job card that has no link element: the title is
    [None], and building the text to filter raises [TypeError]; the
    adapter does not return. *)
Theorem wellfound_missing_title_raises :
  (parse_wellfound module_globals
     (sample_environment ∅ (λ _, Returned page_without_link)) "India"
     (initial_world ∅)).1 = Raised TypeError.
Proof. vm_compute. reflexivity. Qed.

(** ** Reporter: facts *)

(** C6. Given no postings, [save_results] writes neither file, prints
    that there is nothing to save, and returns. *)
Theorem save_results_empty (to_csv to_html : DataFrame → string) (w : world) :
  save_results to_csv to_html [] w
  = (Returned (),
     World (stdout w ++ ["No results to save."]) (files w) (network w)
           (slept w)).
Proof. reflexivity. Qed.

(** With a posting to save, both files are written. *)
Example save_results_one :
  let out :=
    save_results (λ _, "csv") (λ _, "html")
      [sample_posting "Junior Web Developer" "" "https://x/a"]
      (initial_world ∅) in
  out.1 = Returned ()
  ∧ files out.2 !! "jobs.csv" = Some "csv"
  ∧ files out.2 !! "jobs.html" = Some "html"
  ∧ stdout out.2 = ["Saved 1 jobs to jobs.csv and jobs.html"].
Proof. repeat split; vm_compute; reflexivity. Qed.

(** ** Notifier: facts *)

(** The port is converted first: a malformed value raises before any
    other field is looked at. *)
Lemma send_email_bad_port E s subject body attachments w :
  getenv E "EMAIL_SMTP_PORT" = Some s →
  Str.int_parse s = None →
  send_email_with_attachments E subject body attachments w
  = (Raised ValueError, w).
Proof.
  intros Hport Hint. unfold send_email_with_attachments, mbind, M_bind.
  rewrite Hport. unfold int. by rewrite Hint.
Qed.

(** C7, as the code has it. In every environment where the port is unset
    or is a decimal literal, and one of host, user, password and recipient
    list is absent (unset, or the empty string), the notifier opens no
    connection, prints that mail is not configured, and returns. *)
Theorem send_email_unconfigured E subject body attachments w :
  (∀ s, getenv E "EMAIL_SMTP_PORT" = Some s → is_Some (Str.int_parse s)) →
  (∃ k, k ∈ ["EMAIL_SMTP_HOST"; "EMAIL_USER"; "EMAIL_PASS"; "EMAIL_TO"]
        ∧ truthy (getenv E k) = false) →
  send_email_with_attachments E subject body attachments w
  = (Returned (),
     World (stdout w ++ ["Email not configured; skipping email send."])
           (files w) (network w) (slept w)).
Proof.
  intros Hport (k & Hk & Hfalse).
  unfold send_email_with_attachments, mbind, M_bind.
  assert (∃ port,
    match getenv E "EMAIL_SMTP_PORT" with
    | Some s => int s
    | None => Returned 587
    end = Returned port) as [port ->].
  { destruct (getenv E "EMAIL_SMTP_PORT") as [s|] eqn:Hs; [|by eexists].
    destruct (Hport s eq_refl) as [n Hn]. exists n. unfold int.
    by rewrite Hn. }
  unfold lift.
  assert (truthy (getenv E "EMAIL_SMTP_HOST") && truthy (getenv E "EMAIL_USER")
          && truthy (getenv E "EMAIL_PASS") && truthy (getenv E "EMAIL_TO")
          = false) as Hcond.
  { repeat (apply elem_of_cons in Hk as [->|Hk]);
      [..|by apply elem_of_nil in Hk]; rewrite Hfalse;
      by rewrite ?andb_false_r. }
  destruct (getenv E "EMAIL_SMTP_HOST"), (getenv E "EMAIL_USER"),
    (getenv E "EMAIL_PASS"), (getenv E "EMAIL_TO"); try reflexivity.
  by rewrite Hcond.
Qed.

Lemma send_email_unconfigured_witness :
  send_email_with_attachments
    (sample_environment
       {[ "EMAIL_SMTP_HOST" := "smtp.example.com"; "EMAIL_USER" := "me";
          "EMAIL_PASS" := "secret"; "EMAIL_SMTP_PORT" := "2525" ]}
       (λ _, Raised ConnectionError))
    "Daily Jobs" "See attached" (Some ["jobs.csv"; "jobs.html"])
    (initial_world ∅)
  = (Returned (),
     World (stdout (initial_world ∅)
            ++ ["Email not configured; skipping email send."])
           (files (initial_world ∅)) (network (initial_world ∅))
           (slept (initial_world ∅))).
Proof.
  apply send_email_unconfigured.
  - intros s Hs. vm_compute in Hs. injection Hs as <-. by exists 2525.
  - exists "EMAIL_TO". split; [|reflexivity].
    apply list_elem_of_In. simpl. tauto.
Defined.

(** The claim of C7 fails when the port is malformed: with no recipient
    configured the notifier still raises, and prints nothing. *)
Lemma send_email_unconfigured_bad_port :
  getenv bad_port_environment "EMAIL_TO" = None
  ∧ send_email_with_attachments bad_port_environment
      "Daily Jobs" "See attached" None (initial_world ∅)
    = (Raised ValueError, initial_world ∅).
Proof. split; reflexivity. Qed.

(** C10. [send_email_with_attachments] converts the value of
    [EMAIL_SMTP_PORT] with [int] before it checks that mail is configured:
    there is an environment, with the port set to a string that is no
    integer and [EMAIL_TO] absent, in which the function raises instead of
    skipping delivery. *)
Theorem port_converted_before_check :
  ∃ E s,
    getenv E "EMAIL_SMTP_PORT" = Some s
    ∧ int s = Raised ValueError
    ∧ getenv E "EMAIL_TO" = None
    ∧ ∀ subject body attachments w,
        send_email_with_attachments E subject body attachments w
        = (Raised ValueError, w).
Proof.
  exists bad_port_environment, "abc".
  do 3 (split; [reflexivity|]).
  intros. by apply send_email_bad_port with "abc".
Qed.

(** * Further properties of the script *)

(** Close a goal [run = value] between closed terms by evaluating [run]. *)
Ltac by_evaluation :=
  match goal with |- _ = ?value => vm_cast_no_check (eq_refl value) end.

(** ** Matcher *)

Lemma lower_length s : String.length (Str.lower s) = String.length s.
Proof. induction s as [|c s IH]; [done|]. simpl. by rewrite IH. Qed.

Lemma string_app_inj s1 s2 t1 t2 :
  String.length s1 = String.length t1 →
  s1 +:+ s2 = t1 +:+ t2 → s1 = t1 ∧ s2 = t2.
Proof.
  revert t1. induction s1 as [|a s1 IH]; intros [|b t1] Hlen H;
    try discriminate Hlen; [done|].
  rewrite !StrFacts.app_cons in H. injection H as -> H.
  destruct (IH t1) as [-> ->]; [by injection Hlen | done | done].
Qed.

(** A keyword found in a lowered text is itself in lower case: the
    keywords are compared as they are written, only the text is lowered. *)
Lemma str_in_lower_keyword k text :
  Str.str_in k (Str.lower text) = true → Str.lower k = k.
Proof.
  intros H. apply StrFacts.str_in_spec in H as (pre & post & H).
  pose proof (f_equal Str.lower H) as H'.
  rewrite StrFacts.lower_idem, H, !StrFacts.lower_app in H'.
  apply string_app_inj in H' as [_ H']; [|by rewrite lower_length].
  apply string_app_inj in H' as [H' _]; [done | by rewrite lower_length].
Qed.

Lemma any_keyword_iff kws text :
  Str.any (λ k, Str.str_in k (Str.lower text)) kws = true ↔
  ∃ k, k ∈ kws ∧ Str.lower k = k ∧ contains_ignoring_case text k.
Proof.
  unfold Str.any. rewrite existsb_exists. split.
  - intros (k & Hk & H). exists k. apply list_elem_of_In in Hk.
    pose proof (str_in_lower_keyword _ _ H) as Hlow.
    repeat split; try done. by apply StrFacts.str_in_lower.
  - intros (k & Hk & Hlow & H). exists k.
    split; [by apply list_elem_of_In|]. by apply StrFacts.str_in_lower.
Qed.

(** Whatever plain keywords are configured (ASCII, without k, not ending
    in i), [matches_experience] is true exactly when the text contains,
    ignoring case, a keyword that is written in lower case; a keyword with
    a capital letter in it never matches. *)
Theorem matches_experience_any_keywords g text :
  Forall (λ k, plain_keyword k = true) (EXPERIENCE_KEYWORDS g) →
  matches_experience g text = true ↔
  ∃ k, k ∈ EXPERIENCE_KEYWORDS g ∧ Str.lower k = k
       ∧ contains_ignoring_case text k.
Proof. intros _. apply any_keyword_iff. Qed.

Lemma matches_experience_any_keywords_witness :
  matches_experience module_globals "JUNIOR Web Developer" = true ↔
  ∃ k, k ∈ EXPERIENCE_KEYWORDS module_globals ∧ Str.lower k = k
       ∧ contains_ignoring_case "JUNIOR Web Developer" k.
Proof.
  apply (matches_experience_any_keywords module_globals).
  repeat constructor.
Defined.

(** [matches_work_mode] with the module's vocabulary is true exactly when
    the text contains remote, hybrid or on-site, ignoring case. *)
Theorem matches_work_mode_vocabulary text :
  matches_work_mode module_globals text = true ↔
  ∃ k, k ∈ ["remote"; "hybrid"; "on-site"] ∧ contains_ignoring_case text k.
Proof.
  unfold matches_work_mode. rewrite any_keyword_iff. simpl.
  split; intros (k & Hk & H); exists k; [by destruct H|].
  repeat split; try done.
  repeat (apply elem_of_cons in Hk as [->|Hk]); try reflexivity.
  by apply elem_of_nil in Hk.
Qed.

Lemma contains_ignoring_case_app text k pre post :
  contains_ignoring_case text k →
  contains_ignoring_case (pre +:+ text +:+ post) k.
Proof.
  intros (a & mid & b & -> & H). exists (pre +:+ a), mid, (b +:+ post).
  split; [|done]. by rewrite !StrFacts.app_assoc'.
Qed.

(** Text around a match does not undo it: with plain keywords (ASCII,
    without k, not ending in i), when a text matches, so does every text
    that contains it. *)
Theorem matches_experience_monotone g text pre post :
  Forall (λ k, plain_keyword k = true) (EXPERIENCE_KEYWORDS g) →
  matches_experience g text = true →
  matches_experience g (pre +:+ text +:+ post) = true.
Proof.
  intros _. unfold matches_experience. rewrite !any_keyword_iff.
  intros (k & Hk & Hlow & H).
  exists k. repeat split; try done. by apply contains_ignoring_case_app.
Qed.

Lemma matches_experience_monotone_witness :
  matches_experience module_globals
    ("Senior " +:+ "intern" +:+ "ational sales") = true.
Proof.
  apply (matches_experience_monotone module_globals "intern").
  - repeat constructor.
  - reflexivity.
Defined.

(** ** Source adapters *)

(** The record the adapters build: its keys and its values. *)
Lemma record_fields (title company location salary link source summary
    : string) :
  let e : posting :=
    list_to_map
      [("title", title); ("company", company); ("location", location);
       ("salary", salary); ("link", link); ("source", source);
       ("summary", summary)] in
  dom e = posting_fields
  ∧ e !! "title" = Some title ∧ e !! "company" = Some company
  ∧ e !! "location" = Some location ∧ e !! "salary" = Some salary
  ∧ e !! "link" = Some link ∧ e !! "source" = Some source
  ∧ e !! "summary" = Some summary.
Proof.
  split; [|repeat split; reflexivity].
  simpl. rewrite !dom_insert_L, dom_empty_L. unfold posting_fields. simpl.
  reflexivity.
Qed.

Lemma indeed_card_records g location results card :
  Forall (indeed_record g location) results →
  Forall (indeed_record g location)
    (indeed_card g location (indeed_url g location) results card).
Proof.
  intros Hres. unfold indeed_card. cbv zeta.
  match goal with
  | |- Forall _ (if ?c then _ else _) => destruct c eqn:Hm
  end; [|done].
  apply Forall_app. split; [done|]. constructor; [|constructor].
  match goal with
  | |- indeed_record _ _
         (list_to_map [(_, ?t); (_, ?c); (_, ?l); (_, ?s); (_, ?k); (_, ?so);
                       (_, ?su)]) =>
      destruct (record_fields t c l s k so su)
        as (Hdom & Ht & Hc & Hl & Hs & Hk & Hso & Hsu)
  end.
  repeat split; try done.
  - eexists. split; [exact Hk|].
    destruct (select_one "a" card) as [el|]; [|by left].
    destruct (attrs el !! "href") as [href|]; [|by left].
    case_bool_decide; [|by left]. right. by exists href.
  - apply orb_true_iff in Hm as [Hm|Hm].
    + left. unfold passes, entry_text, dict_get. by rewrite Ht, Hsu.
    + right. eexists. by split; [exact Hc|].
Qed.

Lemma indeed_cards_records g location cards results :
  Forall (indeed_record g location) results →
  Forall (indeed_record g location)
    (foldl (indeed_card g location (indeed_url g location)) results cards).
Proof.
  revert results. induction cards as [|card cards IH]; intros results H;
    [done|].
  simpl. apply IH. by apply indeed_card_records.
Qed.

Lemma parse_indeed_run_records g E location w results :
  (parse_indeed g E location w).1 = Returned results →
  Forall (indeed_record g location) results.
Proof.
  unfold parse_indeed, mbind, M_bind. rewrite requests_get_run.
  destruct (http E _) as [r|e]; [|discriminate].
  case_bool_decide; simpl; intros [= <-]; [constructor|].
  by apply indeed_cards_records.
Qed.

(** Every record [parse_indeed] returns has the seven fields, with source
    Indeed and salary N/A; its link is the search address or an address on
    the board; and it passed the filter on its title and summary or on its
    company. *)
Theorem parse_indeed_records g E location w results :
  (parse_indeed g E location w).1 = Returned results →
  Forall (indeed_record g location) results.
Proof. apply parse_indeed_run_records. Qed.

Lemma parse_indeed_records_witness :
  Forall (indeed_record module_globals "India")
    [list_to_map
       [("title", "Junior Web Developer"); ("company", "Acme");
        ("location", "Pune"); ("salary", "N/A");
        ("link", "https://www.indeed.com/rc/clk?jk=1");
        ("source", "Indeed"); ("summary", "Entry level")];
     list_to_map
       [("title", "N/A"); ("company", "Graduate Recruiters Ltd");
        ("location", "India"); ("salary", "N/A");
        ("link", indeed_url module_globals "India");
        ("source", "Indeed"); ("summary", "")]].
Proof.
  apply (parse_indeed_records module_globals
           (sample_environment ∅ (λ _, Returned indeed_page)) "India"
           (initial_world ∅)).
  by_evaluation.
Defined.

(** One pass through the body of the Wellfound loop adds at most one
    record, and the record it adds is as described. *)
Lemma wellfound_card_records g location results job results' :
  wellfound_card g location (wellfound_url g location) results job
  = Returned results' →
  Forall (wellfound_record g location) results →
  Forall (wellfound_record g location) results'
  ∧ (length results' ≤ S (length results))%nat.
Proof.
  unfold wellfound_card. intros Hrun Hres.
  destruct (select_one job_link job) as [el|]; simpl in Hrun.
  - destruct (attrs el !! "href") as [href|]; [|discriminate Hrun].
    simpl in Hrun.
    destruct (matches_experience g _) eqn:Hm; injection Hrun as <-;
      [|split; [done|lia]].
    split; [|rewrite length_app; simpl; lia].
    apply Forall_app. split; [done|]. constructor; [|constructor].
    match goal with
    | |- wellfound_record _ _
           (<[_:=?t]> (<[_:=?c]> (<[_:=?l]> (<[_:=?s]> (<[_:=?k]>
              (<[_:=?so]> (<[_:=?su]> ∅))))))) =>
        destruct (record_fields t c l s k so su)
          as (Hdom & Ht & Hc & Hl & Hs & Hk & Hso & Hsu)
    end.
    simpl in Hdom, Ht, Hc, Hl, Hs, Hk, Hso, Hsu.
    split; [done|]. split; [done|]. split; [done|]. split; [done|]. split.
    + eexists. split; [exact Hk|]. right. by exists href.
    + unfold passes, entry_text, dict_get. by rewrite Ht, Hsu.
  - discriminate Hrun.
Qed.

Lemma wellfound_loop_records g location jobs results out :
  for_each (wellfound_card g location (wellfound_url g location)) jobs
    results = Returned out →
  Forall (wellfound_record g location) results →
  Forall (wellfound_record g location) out
  ∧ (length out ≤ length results + length jobs)%nat.
Proof.
  revert results. induction jobs as [|job jobs IH]; intros results Hrun Hres.
  - injection Hrun as <-. split; [done|lia].
  - rewrite for_each_cons in Hrun.
    destruct (wellfound_card _ _ _ results job) as [results'|e] eqn:Hstep;
      [|discriminate Hrun].
    rewrite bind_returned in Hrun.
    destruct (wellfound_card_records _ _ _ _ _ Hstep Hres) as [Hres' Hlen].
    destruct (IH _ Hrun Hres') as [Hout Hlen'].
    split; [done|]. simpl. lia.
Qed.

Lemma parse_wellfound_run g E location w r :
  http E (wellfound_url g location) = Returned r →
  status_code r = 200 →
  (parse_wellfound g E location w).1
  = for_each (wellfound_card g location (wellfound_url g location))
      (take 30 (select (soup r) job_card)) [].
Proof.
  intros H Hs. unfold parse_wellfound, mbind, M_bind.
  rewrite requests_get_run, H.
  by rewrite bool_decide_eq_false_2 by (by intros ?).
Qed.

Lemma parse_wellfound_loop g E location w results :
  (parse_wellfound g E location w).1 = Returned results →
  results = []
  ∨ ∃ r, for_each (wellfound_card g location (wellfound_url g location))
           (take 30 (select (soup r) job_card)) [] = Returned results.
Proof.
  unfold parse_wellfound, mbind, M_bind. rewrite requests_get_run.
  destruct (http E _) as [r|e]; [|discriminate].
  case_bool_decide; simpl; intros Hrun.
  - left. by injection Hrun.
  - right. by exists r.
Qed.

Lemma parse_wellfound_run_records g E location w results :
  (parse_wellfound g E location w).1 = Returned results →
  Forall (wellfound_record g location) results.
Proof.
  intros H. apply parse_wellfound_loop in H as [->|[r H]]; [constructor|].
  by apply wellfound_loop_records in H as [H _].
Qed.

(** Every record [parse_wellfound] returns has the seven fields, with
    source Wellfound, salary N/A and the location that was searched for;
    and its title and summary pass the experience filter, so the
    consolidator's filter keeps it. *)
Theorem parse_wellfound_records g E location w results :
  (parse_wellfound g E location w).1 = Returned results →
  Forall (wellfound_record g location) results.
Proof. apply parse_wellfound_run_records. Qed.

Lemma parse_wellfound_records_witness :
  Forall (wellfound_record module_globals "India")
    (replicate 30
       (list_to_map
          [("title", "Junior Web Developer"); ("company", "Acme");
           ("location", "India"); ("salary", "N/A");
           ("link", "https://wellfound.com/jobs/1");
           ("source", "Wellfound");
           ("summary", "Junior Web Developer Acme")])).
Proof.
  apply (parse_wellfound_records module_globals
           (sample_environment ∅ (λ _, Returned wellfound_page)) "India"
           (initial_world ∅)).
  by_evaluation.
Defined.

(** [parse_wellfound] returns at most thirty records, however many job
    cards the page has. *)
Theorem parse_wellfound_at_most_30 g E location w results :
  (parse_wellfound g E location w).1 = Returned results →
  (length results ≤ 30)%nat.
Proof.
  intros H. apply parse_wellfound_loop in H as [->|[r H]]; [simpl; lia|].
  apply wellfound_loop_records in H as [_ H]; [|constructor].
  rewrite length_take in H. cbn [length Nat.add] in H. lia.
Qed.

Lemma parse_wellfound_at_most_30_witness :
  (length
     (replicate 30
        (list_to_map
           [("title", "Junior Web Developer"); ("company", "Acme");
            ("location", "India"); ("salary", "N/A");
            ("link", "https://wellfound.com/jobs/1");
            ("source", "Wellfound");
            ("summary", "Junior Web Developer Acme")] : posting))
   ≤ 30)%nat.
Proof.
  apply (parse_wellfound_at_most_30 module_globals
           (sample_environment ∅ (λ _, Returned wellfound_page)) "India"
           (initial_world ∅)).
  by_evaluation.
Defined.

Lemma wellfound_card_returns g location url results job :
  (∃ results', wellfound_card g location url results job = Returned results')
  ↔ readable_card job.
Proof.
  unfold wellfound_card, readable_card.
  destruct (select_one job_link job) as [el|]; simpl.
  - destruct (attrs el !! "href") as [href|] eqn:Hh; simpl.
    + split; [intros _; exists el; split; [done|by rewrite Hh]|intros _].
      destruct (matches_experience g _); by eexists.
    + split; [by intros [? ?]|].
      intros (el' & [= <-] & [? Hsome]). rewrite Hh in Hsome. discriminate.
  - split; [by intros [? ?]|]. by intros (el & ? & _).
Qed.

Lemma wellfound_loop_returns g location url jobs results :
  (∃ out, for_each (wellfound_card g location url) jobs results
          = Returned out)
  ↔ Forall readable_card jobs.
Proof.
  revert results. induction jobs as [|job jobs IH]; intros results.
  - split; [constructor|]. intros _. by eexists.
  - rewrite for_each_cons, Forall_cons, <- wellfound_card_returns. split.
    + intros [out Hout].
      destruct (wellfound_card _ _ _ results job) as [results'|e] eqn:Hstep;
        [|discriminate Hout].
      split; [by eexists|]. apply (IH results'). by exists out.
    + intros [[results' Hstep] Hjobs]. rewrite Hstep, bind_returned.
      by apply IH.
Qed.

(** On a page that was fetched with status 200, [parse_wellfound] returns
    exactly when each of the first thirty job cards has a link element
    with an address; a card further down the page is never looked at. *)
Theorem parse_wellfound_returns_iff g E location w r :
  http E (wellfound_url g location) = Returned r →
  status_code r = 200 →
  (∃ results, (parse_wellfound g E location w).1 = Returned results)
  ↔ Forall readable_card (take 30 (select (soup r) job_card)).
Proof.
  intros H Hs. rewrite (parse_wellfound_run _ _ _ _ r) by done.
  apply wellfound_loop_returns.
Qed.

Lemma parse_wellfound_returns_iff_witness :
  (∃ results,
     (parse_wellfound module_globals
        (sample_environment ∅ (λ _, Returned wellfound_page)) "India"
        (initial_world ∅)).1 = Returned results)
  ↔ Forall readable_card
      (take 30 (select (soup wellfound_page) job_card)).
Proof.
  apply (parse_wellfound_returns_iff module_globals
           (sample_environment ∅ (λ _, Returned wellfound_page)) "India"
           (initial_world ∅) wellfound_page); by_evaluation.
Defined.

Lemma parse_indeed_world g E location w :
  let w' := (parse_indeed g E location w).2 in
  network w' = network w ++ [HttpGet (indeed_url g location) (HEADERS g) 15]
  ∧ files w' = files w ∧ slept w' = slept w
  ∧ ∃ lines, stdout w' = stdout w ++ lines ∧ (length lines ≤ 1)%nat.
Proof.
  cbv zeta. unfold parse_indeed, mbind, M_bind. rewrite requests_get_run.
  destruct (http E (indeed_url g location)) as [r|e];
    [case_bool_decide|]; simpl; (do 3 (split; [reflexivity|])).
  - exists [Str.join " "
              ["Indeed fetch failed:"; Str.str_of_int (status_code r)]].
    split; [done | simpl; lia].
  - exists []. split; [by rewrite app_nil_r | simpl; lia].
  - exists []. split; [by rewrite app_nil_r | simpl; lia].
Qed.

Lemma parse_wellfound_world g E location w :
  let w' := (parse_wellfound g E location w).2 in
  network w'
  = network w ++ [HttpGet (wellfound_url g location) (HEADERS g) 15]
  ∧ files w' = files w ∧ slept w' = slept w
  ∧ ∃ lines, stdout w' = stdout w ++ lines ∧ (length lines ≤ 1)%nat.
Proof.
  cbv zeta. unfold parse_wellfound, mbind, M_bind. rewrite requests_get_run.
  destruct (http E (wellfound_url g location)) as [r|e];
    [case_bool_decide|]; simpl; (do 3 (split; [reflexivity|])).
  - exists [Str.join " "
              ["Wellfound fetch failed:"; Str.str_of_int (status_code r)]].
    split; [done | simpl; lia].
  - exists []. split; [by rewrite app_nil_r | simpl; lia].
  - exists []. split; [by rewrite app_nil_r | simpl; lia].
Qed.

(** An adapter sends one request, a GET of its search address with the
    module's headers and a timeout of 15 seconds, whether the request
    succeeds or not; it writes no file, does not sleep, and prints at most
    one line. *)
Theorem adapter_effects g E location w :
  let sent url :=
    network w ++ [HttpGet url (HEADERS g) 15] in
  let quiet (w' : world) :=
    files w' = files w ∧ slept w' = slept w
    ∧ ∃ lines, stdout w' = stdout w ++ lines ∧ (length lines ≤ 1)%nat in
  (network (parse_indeed g E location w).2 = sent (indeed_url g location)
   ∧ quiet (parse_indeed g E location w).2)
  ∧ (network (parse_wellfound g E location w).2
     = sent (wellfound_url g location)
     ∧ quiet (parse_wellfound g E location w).2).
Proof.
  cbv zeta.
  destruct (parse_indeed_world g E location w) as (? & ? & ? & ?).
  destruct (parse_wellfound_world g E location w) as (? & ? & ? & ?).
  by repeat split.
Qed.

(** ** Consolidator *)

Lemma consolidate_step_returns g seen filtered (e : posting) l :
  e !! "link" = Some l →
  ∃ filtered',
    consolidate_step g (seen, filtered) e
    = Returned ({[l]} ∪ seen, filtered').
Proof.
  intros He. destruct (decide (l ∈ seen)) as [Hl|Hl].
  - exists filtered. rewrite (consolidate_step_seen _ _ _ _ l) by done.
    do 2 f_equal. symmetry. apply subseteq_union_1_L.
    by apply singleton_subseteq_l.
  - destruct (passes_dec g e) as [Hp|Hp].
    + eexists. by apply consolidate_step_keep.
    + eexists. by apply consolidate_step_drop.
Qed.

Lemma consolidate_loop_raises g entries seen filtered :
  for_each (consolidate_step g) entries (seen, filtered)
  = Raised (KeyError "link")
  ↔ Exists (λ e : posting, e !! "link" = None) entries.
Proof.
  revert seen filtered.
  induction entries as [|x entries IH]; intros seen filtered.
  - split; [discriminate | by intros ?%Exists_nil].
  - rewrite for_each_cons, Exists_cons.
    destruct (x !! "link") as [lx|] eqn:Hx.
    + destruct (consolidate_step_returns g seen filtered x lx Hx)
        as [filtered' ->].
      rewrite bind_returned, IH. split; [by right|]. by intros [?|?].
    + rewrite consolidate_step_no_link by done. split; [by left|done].
Qed.

(** [consolidate_and_filter] raises [KeyError] for the key link exactly
    when some record of the input has no link, wherever it stands and
    whether or not it would pass the filter. *)
Theorem consolidate_and_filter_key_error g entries :
  consolidate_and_filter g entries = Raised (KeyError "link")
  ↔ Exists (λ e : posting, e !! "link" = None) entries.
Proof.
  rewrite <- (consolidate_loop_raises g entries ∅ []).
  unfold consolidate_and_filter.
  destruct (for_each _ entries _) as [st|e];
    [|simpl; split; intros [= ->]; reflexivity].
  rewrite bind_returned. split; discriminate.
Qed.

Lemma first_with_link_link l entries (e : posting) :
  first_with_link l entries = Some e → e !! "link" = Some l ∧ e ∈ entries.
Proof.
  unfold first_with_link. intros H. apply find_some in H as [Hin H].
  apply bool_decide_eq_true in H. split; [done|]. by apply list_elem_of_In.
Qed.

(** The loop keeps every record that is the first with its link, when the
    link is new and the record passes. *)
Lemma consolidate_loop_complete g entries seen filtered st l (e : posting) :
  for_each (consolidate_step g) entries (seen, filtered) = Returned st →
  l ∉ seen → first_with_link l entries = Some e → passes g e →
  e ∈ st.2.
Proof.
  revert seen filtered.
  induction entries as [|x entries IH]; intros seen filtered Hrun Hl Hf Hp;
    [discriminate Hf|].
  rewrite for_each_cons in Hrun.
  destruct (x !! "link") as [lx|] eqn:Hx;
    [|by rewrite consolidate_step_no_link in Hrun].
  destruct (decide (lx = l)) as [->|Hne].
  - rewrite first_with_link_cons_eq in Hf by done. injection Hf as ->.
    rewrite (consolidate_step_keep _ _ _ _ l), bind_returned in Hrun by done.
    apply consolidate_loop in Hrun as (kept & -> & _).
    apply elem_of_app. left. apply elem_of_app. right. by left.
  - rewrite first_with_link_cons_ne in Hf by congruence.
    destruct (consolidate_step_returns g seen filtered x lx Hx)
      as [filtered' Hstep].
    rewrite Hstep, bind_returned in Hrun.
    apply (IH _ _ Hrun); [|done..].
    apply not_elem_of_union. split; [|done].
    apply not_elem_of_singleton. congruence.
Qed.

(** The output of [consolidate_and_filter] is known record by record: a
    record is in it exactly when it is the first record of the input with
    its link and passes the experience filter. *)
Theorem consolidate_and_filter_membership g entries out :
  consolidate_and_filter g entries = Returned out →
  ∀ e : posting,
    e ∈ out ↔ ∃ l, first_with_link l entries = Some e ∧ passes g e.
Proof.
  unfold consolidate_and_filter. intros Hrun e.
  destruct (for_each _ entries _) as [st|err] eqn:Hloop; [|discriminate].
  rewrite bind_returned in Hrun. injection Hrun as <-. split.
  - intros He.
    apply consolidate_loop in Hloop as (kept & Hst & _ & _ & Hin).
    simpl in Hst. rewrite Hst in He.
    destruct (Hin e He) as (l & _ & _ & Hf & Hp). by exists l.
  - intros (l & Hf & Hp).
    by apply (consolidate_loop_complete g entries ∅ [] st l e).
Qed.

Lemma consolidate_and_filter_membership_witness :
  consolidate_and_filter module_globals
    [sample_posting "Junior Web Developer" "" "https://x/a";
     sample_posting "Senior Architect" "" "https://x/b";
     sample_posting "Intern" "" "https://x/a"]
  = Returned [sample_posting "Junior Web Developer" "" "https://x/a"]
  ∧ ∀ e : posting,
      e ∈ [sample_posting "Junior Web Developer" "" "https://x/a"]
      ↔ ∃ l,
          first_with_link l
            [sample_posting "Junior Web Developer" "" "https://x/a";
             sample_posting "Senior Architect" "" "https://x/b";
             sample_posting "Intern" "" "https://x/a"] = Some e
          ∧ passes module_globals e.
Proof.
  split; [by_evaluation|].
  apply (consolidate_and_filter_membership module_globals).
  by_evaluation.
Defined.

Lemma for_each_app {A S} (body : S → A → outcome S) l1 l2 s :
  for_each body (l1 ++ l2) s = for_each body l1 s ≫= for_each body l2.
Proof.
  revert s. induction l1 as [|x l1 IH]; intros s; [done|].
  rewrite <- app_comm_cons, !for_each_cons.
  destruct (body s x) as [s'|e]; [|done].
  rewrite !bind_returned. apply IH.
Qed.

(** When the loop ends, the links of all records it went through are in
    [seen], and what was in [seen] still is. *)
Lemma consolidate_loop_seen g entries seen filtered st :
  for_each (consolidate_step g) entries (seen, filtered) = Returned st →
  seen ⊆ st.1
  ∧ ∀ (e : posting) l, e ∈ entries → e !! "link" = Some l → l ∈ st.1.
Proof.
  revert seen filtered.
  induction entries as [|x entries IH]; intros seen filtered Hrun.
  - injection Hrun as <-. split; [done|]. intros e l He. inversion He.
  - rewrite for_each_cons in Hrun.
    destruct (x !! "link") as [lx|] eqn:Hx;
      [|by rewrite consolidate_step_no_link in Hrun].
    destruct (consolidate_step_returns g seen filtered x lx Hx)
      as [filtered' Hstep].
    rewrite Hstep, bind_returned in Hrun.
    apply IH in Hrun as [Hsub Hin]. split.
    + etrans; [|exact Hsub]. apply union_subseteq_r.
    + intros e l He Hl. apply elem_of_cons in He as [->|He]; [|eauto].
      apply Hsub. rewrite Hx in Hl. injection Hl as ->.
      apply elem_of_union_l. by apply elem_of_singleton.
Qed.

(** Records whose links are all in [seen] leave the state as it is. *)
Lemma consolidate_loop_skip g entries seen filtered :
  (∀ e : posting, e ∈ entries → ∃ l, e !! "link" = Some l ∧ l ∈ seen) →
  for_each (consolidate_step g) entries (seen, filtered)
  = Returned (seen, filtered).
Proof.
  induction entries as [|x entries IH]; intros Hall; [done|].
  destruct (Hall x) as (lx & Hx & Hseen); [by left|].
  rewrite for_each_cons, (consolidate_step_seen _ _ _ _ lx) by done.
  rewrite bind_returned. apply IH. intros e He. apply Hall. by right.
Qed.

(** Records that come after the first record with their link change
    nothing: appending records whose links all occur earlier gives the
    same result, be it a list or an exception. *)
Theorem consolidate_and_filter_absorbs g entries later :
  (∀ e : posting, e ∈ later →
     ∃ l e', e !! "link" = Some l ∧ e' ∈ entries ∧ e' !! "link" = Some l) →
  consolidate_and_filter g (entries ++ later)
  = consolidate_and_filter g entries.
Proof.
  intros Hlater. unfold consolidate_and_filter. rewrite for_each_app.
  destruct (for_each _ entries _) as [[seen filtered]|e] eqn:Hrun; [|done].
  rewrite bind_returned, consolidate_loop_skip; [done|].
  intros e He. destruct (Hlater e He) as (l & e' & Hl & He' & Hl').
  exists l. split; [done|].
  apply consolidate_loop_seen in Hrun as [_ Hin]. by apply (Hin e' l).
Qed.

Lemma consolidate_and_filter_absorbs_witness :
  consolidate_and_filter module_globals
    ([sample_posting "Senior Architect" "" "https://x/a";
      sample_posting "Intern" "" "https://x/b"]
     ++ [sample_posting "Junior Architect" "" "https://x/a"])
  = consolidate_and_filter module_globals
      [sample_posting "Senior Architect" "" "https://x/a";
       sample_posting "Intern" "" "https://x/b"].
Proof.
  apply (consolidate_and_filter_absorbs module_globals).
  intros e He. apply list_elem_of_singleton in He as ->.
  exists "https://x/a", (sample_posting "Senior Architect" "" "https://x/a").
  split; [reflexivity|]. split; [by left | reflexivity].
Defined.

(** ** Reporter *)

Lemma frame_select_returns results cols :
  (∀ c, c ∈ cols → ∃ e : posting, e ∈ results ∧ is_Some (e !! c)) →
  frame_select results cols
  = Returned {| columns := cols;
                rows := (λ e : posting, (λ c, e !! c) <$> cols) <$> results |}.
Proof.
  intros Hcols. unfold frame_select.
  destruct (filter _ cols) as [|c rest] eqn:Hf; [done|].
  assert (c ∈ filter (λ c, c ∉ ⋃ (dom <$> results)) cols) as Hc
    by (rewrite Hf; by left).
  apply list_elem_of_filter in Hc as [Hnot Hc]. exfalso. apply Hnot.
  destruct (Hcols c Hc) as (e & He & Hsome).
  apply elem_of_union_list. exists (dom e). split.
  - apply list_elem_of_fmap. by exists e.
  - by apply elem_of_dom.
Qed.

Lemma frame_select_raises results cols c :
  c ∈ cols → (∀ e : posting, e ∈ results → e !! c = None) →
  ∃ k, frame_select results cols = Raised (KeyError k).
Proof.
  intros Hc Hnone. unfold frame_select.
  destruct (filter _ cols) as [|k rest] eqn:Hf; [|by exists k].
  exfalso. apply (filter_nil_not_elem_of _ _ c Hf); [|done].
  intros Hin. apply elem_of_union_list in Hin as (X & HX & Hin).
  apply list_elem_of_fmap in HX as (e & -> & He).
  apply elem_of_dom in Hin as [v Hv]. rewrite (Hnone e He) in Hv.
  discriminate.
Qed.

Lemma save_results_run (to_csv to_html : DataFrame → string)
    (results : list posting) (w : world) :
  results ≠ [] →
  (∀ c, c ∈ report_columns →
     ∃ e : posting, e ∈ results ∧ is_Some (e !! c)) →
  save_results to_csv to_html results w
  = (Returned (),
     World (stdout w
            ++ ["Saved " +:+ Str.str_of_int (Z.of_nat (length results))
                +:+ " jobs to jobs.csv and jobs.html"])
           (<["jobs.html" := to_html (report_frame results)]>
              (<["jobs.csv" := to_csv (report_frame results)]> (files w)))
           (network w) (slept w)).
Proof.
  intros Hne Hcols. destruct results as [|e results]; [done|].
  unfold save_results, mbind, M_bind, lift.
  unfold report_columns in Hcols.
  rewrite (frame_select_returns _ _ Hcols). unfold report_frame. simpl.
  by rewrite length_fmap.
Qed.

(** Given postings, among which each column of the report has a value in
    at least one, [save_results] writes the table to jobs.csv and to
    jobs.html and to no other file, prints the number of postings, touches
    no network and returns. The table has one row for each posting, in
    order, and no summary column. *)
Theorem save_results_writes (to_csv to_html : DataFrame → string)
    (results : list posting) (w : world) :
  results ≠ [] →
  (∀ c, c ∈ report_columns →
     ∃ e : posting, e ∈ results ∧ is_Some (e !! c)) →
  save_results to_csv to_html results w
  = (Returned (),
     World (stdout w
            ++ ["Saved " +:+ Str.str_of_int (Z.of_nat (length results))
                +:+ " jobs to jobs.csv and jobs.html"])
           (<["jobs.html" := to_html (report_frame results)]>
              (<["jobs.csv" := to_csv (report_frame results)]> (files w)))
           (network w) (slept w)).
Proof. apply save_results_run. Qed.

Lemma save_results_writes_witness :
  save_results (λ _, "csv") (λ _, "html")
    [sample_posting "Junior Web Developer" "" "https://x/a"]
    (initial_world ∅)
  = (Returned (),
     World (stdout (initial_world ∅)
            ++ ["Saved "
                +:+ Str.str_of_int
                      (Z.of_nat
                         (length
                            [sample_posting "Junior Web Developer" ""
                               "https://x/a"]))
                +:+ " jobs to jobs.csv and jobs.html"])
           (<["jobs.html" := "html"]>
              (<["jobs.csv" := "csv"]> (files (initial_world ∅))))
           (network (initial_world ∅)) (slept (initial_world ∅))).
Proof.
  apply (save_results_writes (λ _, "csv") (λ _, "html")
           [sample_posting "Junior Web Developer" "" "https://x/a"]
           (initial_world ∅)).
  - discriminate.
  - intros c Hc.
    exists (sample_posting "Junior Web Developer" "" "https://x/a").
    split; [by left|].
    unfold report_columns in Hc.
    repeat (apply elem_of_cons in Hc as [->|Hc]); try (by eexists).
    by apply elem_of_nil in Hc.
Defined.

(** Given postings none of which has a value for some column of the
    report, [save_results] raises [KeyError] and writes nothing. *)
Theorem save_results_missing_column (to_csv to_html : DataFrame → string)
    (results : list posting) (w : world) c :
  results ≠ [] →
  c ∈ report_columns →
  (∀ e : posting, e ∈ results → e !! c = None) →
  ∃ k, save_results to_csv to_html results w = (Raised (KeyError k), w).
Proof.
  intros Hne Hc Hnone. destruct results as [|e results]; [done|].
  destruct (frame_select_raises (e :: results) report_columns c Hc Hnone)
    as [k Hk].
  exists k. unfold save_results, mbind, M_bind, lift.
  unfold report_columns in Hk. by rewrite Hk.
Qed.

Lemma save_results_missing_column_witness :
  ∃ k,
    save_results (λ _, "csv") (λ _, "html")
      [{[ "title" := "Junior"; "link" := "https://x/a" ]}] (initial_world ∅)
    = (Raised (KeyError k), initial_world ∅).
Proof.
  apply (save_results_missing_column (λ _, "csv") (λ _, "html")
           [{[ "title" := "Junior"; "link" := "https://x/a" ]}]
           (initial_world ∅) "salary").
  - discriminate.
  - unfold report_columns. apply list_elem_of_In. simpl. tauto.
  - intros e He. apply list_elem_of_singleton in He as ->. reflexivity.
Defined.

(** ** Notifier *)

Lemma for_each_M_cons {A S} (body : S → A → M S) x l s w :
  for_each body (x :: l) s w
  = match body s x w with
    | (Returned s', w') => for_each body l s' w'
    | (Raised e, w') => (Raised e, w')
    end.
Proof. reflexivity. Qed.

(** How the steps of a computation run. *)
Lemma check_bind {A} r (k : M A) w :
  (_ ← check r; k) w
  = match r with Some e => (Raised e, w) | None => k w end.
Proof. by destruct r. Qed.

Lemma emit_bind {A} ev (k : M A) w :
  (_ ← emit ev; k) w
  = k (World (stdout w) (files w) (network w ++ [ev]) (slept w)).
Proof. reflexivity. Qed.

Lemma lift_bind {A B} (o : outcome A) (k : A → M B) w :
  (a ← lift o; k a) w
  = match o with Returned a => k a w | Raised e => (Raised e, w) end.
Proof. by destruct o. Qed.

Lemma attach_run E atts path w :
  attach E atts path w
  = match files w !! path with
    | Some data =>
        match email_refuses E (AddAttachment (basename path) data) with
        | Some e => (Raised e, w)
        | None => (Returned (atts ++ [(basename path, data)]), w)
        end
    | None => (Raised (FileNotFoundError path), w)
    end.
Proof.
  unfold attach, mbind, M_bind, read_file.
  destruct (files w !! path) as [data|]; [|done].
  by destruct (email_refuses E _).
Qed.

(** Reading the attachments changes nothing. *)
Lemma attach_loop_world E paths atts w :
  (for_each (attach E) paths atts w).2 = w.
Proof.
  revert atts. induction paths as [|path paths IH]; intros atts; [done|].
  rewrite for_each_M_cons, attach_run.
  destruct (files w !! path) as [data|]; [|done].
  destruct (email_refuses E _); [done | apply IH].
Qed.

Lemma attaches_cons E fs path paths :
  attaches E fs (path :: paths) → attaches E fs paths.
Proof. intros H p data Hp. apply H. by right. Qed.

Lemma attach_loop_returns E paths atts w :
  (∀ path, path ∈ paths → is_Some (files w !! path)) →
  attaches E (files w) paths →
  for_each (attach E) paths atts w
  = (Returned (atts ++ attachments_of (files w) paths), w).
Proof.
  revert atts. induction paths as [|path paths IH]; intros atts Hall Hatt.
  - unfold attachments_of. simpl. by rewrite app_nil_r.
  - rewrite for_each_M_cons, attach_run.
    destruct (Hall path) as [data Hdata]; [by left|]. rewrite Hdata.
    rewrite (Hatt path data) by (done || by left).
    rewrite IH;
      [|intros p Hp; apply Hall; by right | by apply attaches_cons in Hatt].
    unfold attachments_of. simpl. rewrite Hdata. simpl.
    by rewrite <- app_assoc.
Qed.

Lemma attach_loop_raises E paths atts w :
  attaches E (files w) paths →
  (∃ path, path ∈ paths ∧ files w !! path = None) →
  ∃ path, path ∈ paths ∧ files w !! path = None
          ∧ for_each (attach E) paths atts w
            = (Raised (FileNotFoundError path), w).
Proof.
  revert atts. induction paths as [|path paths IH]; intros atts Hatt Hsome.
  - destruct Hsome as (p & Hp & _). inversion Hp.
  - rewrite for_each_M_cons, attach_run.
    destruct (files w !! path) as [data|] eqn:Hdata.
    + rewrite (Hatt path data) by (done || by left).
      destruct (IH (atts ++ [(basename path, data)]))
        as (p & Hp & Hnone & Hrun).
      * by apply attaches_cons in Hatt.
      * destruct Hsome as (p & Hp & Hnone).
        apply elem_of_cons in Hp as [->|Hp]; [congruence|]. by exists p.
      * exists p. split; [by right|]. by split.
    + exists path. split; [by left|]. by split.
Qed.

Lemma smtp_target_plain host port :
  port ≠ 0 → smtp_target host port = Returned (host, port).
Proof.
  intros Hport. unfold smtp_target.
  rewrite bool_decide_eq_false_2 by done. simpl.
  by rewrite bool_decide_eq_false_2 by done.
Qed.

(** With mail configured and a well-formed port, the notifier goes on to
    build the message, read the attachments and talk to the server. *)
Lemma send_email_configured E host user pass to port subject body
    attachments w :
  configured E host user pass to → port_is E port →
  send_email_with_attachments E subject body attachments w
  = (_ ← check (email_refuses E (SetHeader "Subject" subject));
     _ ← check (email_refuses E (SetHeader "From" user));
     _ ← check (email_refuses E (SetHeader "To" to));
     _ ← check (email_refuses E (SetContent body));
     atts ← for_each (attach E) (default [] attachments) [];
     let msg := Message subject user to body atts in
     target ← lift (smtp_target host port);
     _ ← emit (SmtpConnect target.1 target.2);
     _ ← check (smtp_connect E target.1 target.2);
     _ ← emit SmtpStartTls;
     _ ← check (smtp_starttls E);
     _ ← emit (SmtpLogin user pass);
     _ ← check (smtp_login E user pass);
     _ ← emit (SmtpSend msg);
     _ ← check (smtp_send E msg);
     print ["Email sent to"; to]) w.
Proof.
  intros ([Hh Hh'] & [Hu Hu'] & [Hp Hp'] & [Ht Ht']) Hport.
  unfold send_email_with_attachments, port_is in *.
  unfold mbind at 1, M_bind at 1, lift at 1.
  rewrite Hh, Hu, Hp, Ht.
  assert (match getenv E "EMAIL_SMTP_PORT" with
          | Some s => int s
          | None => Returned 587
          end = Returned port) as ->.
  { destruct (getenv E "EMAIL_SMTP_PORT") as [s|].
    - unfold int. by rewrite Hport.
    - by rewrite Hport. }
  unfold truthy. by rewrite !bool_decide_eq_true_2 by done.
Qed.

(** With mail configured, the port unset or a decimal literal between 1
    and 65535, a message the [email] package takes, the attachments on
    disk and a server that accepts every step, the notifier connects to
    the host at the port (587 when unset), starts TLS, logs in, sends one
    message from the user to the recipients with each file attached under
    its base name, prints that the mail was sent, and changes no file. *)
Theorem send_email_delivers E host user pass to port subject body
    attachments w :
  configured E host user pass to → port_is E port → 0 < port ≤ 65535 →
  composes E subject user to body →
  (∀ path, path ∈ default [] attachments → is_Some (files w !! path)) →
  attaches E (files w) (default [] attachments) →
  let msg :=
    Message subject user to body
      (attachments_of (files w) (default [] attachments)) in
  smtp_connect E host port = None → smtp_starttls E = None →
  smtp_login E user pass = None → smtp_send E msg = None →
  send_email_with_attachments E subject body attachments w
  = (Returned (),
     World (stdout w ++ ["Email sent to " +:+ to]) (files w)
           (network w
            ++ [SmtpConnect host port; SmtpStartTls; SmtpLogin user pass;
                SmtpSend msg])
           (slept w)).
Proof.
  intros Hconf Hport Hrange (Hsub & Hfrom & Hto & Hbody) Hfiles Hatt msg
    Hc Hs Hl Hm.
  rewrite (send_email_configured E host user pass to port) by done.
  rewrite check_bind, Hsub, check_bind, Hfrom, check_bind, Hto, check_bind,
    Hbody.
  unfold mbind at 1, M_bind at 1. rewrite attach_loop_returns by done.
  cbv zeta. simpl app. fold msg.
  rewrite lift_bind, smtp_target_plain by lia. cbn [fst snd].
  rewrite emit_bind, check_bind, Hc, emit_bind, check_bind, Hs, emit_bind,
    check_bind, Hl, emit_bind, check_bind, Hm.
  unfold print. simpl. by rewrite <- !app_assoc.
Qed.

Lemma send_email_delivers_witness :
  send_email_with_attachments mail_environment
    "Daily Junior Software/Web Jobs" "Attached: jobs.csv and jobs.html"
    (Some ["jobs.csv"; "jobs.html"]) (initial_world report_files)
  = (Returned (),
     World (stdout (initial_world report_files)
            ++ ["Email sent to " +:+ "a@example.com"])
           (files (initial_world report_files))
           (network (initial_world report_files)
            ++ [SmtpConnect "smtp.example.com" 587; SmtpStartTls;
                SmtpLogin "me" "secret";
                SmtpSend
                  (Message "Daily Junior Software/Web Jobs" "me"
                     "a@example.com" "Attached: jobs.csv and jobs.html"
                     (attachments_of (files (initial_world report_files))
                        (default [] (Some ["jobs.csv"; "jobs.html"]))))])
           (slept (initial_world report_files))).
Proof.
  apply (send_email_delivers mail_environment "smtp.example.com" "me"
           "secret" "a@example.com" 587);
    try reflexivity.
  - repeat split; done.
  - lia.
  - repeat split; reflexivity.
  - intros path Hp. simpl in Hp.
    repeat (apply elem_of_cons in Hp as [->|Hp]); try (by eexists).
    by apply elem_of_nil in Hp.
  - intros path data _ _. reflexivity.
Defined.

Lemma port_cases E :
  (∃ s, getenv E "EMAIL_SMTP_PORT" = Some s ∧ Str.int_parse s = None)
  ∨ ∃ port, port_is E port.
Proof.
  unfold port_is. destruct (getenv E "EMAIL_SMTP_PORT") as [s|].
  - destruct (Str.int_parse s) as [port|] eqn:Hs.
    + right. by exists port.
    + left. by exists s.
  - right. by exists 587.
Qed.

Lemma send_email_skips E port subject body attachments w :
  port_is E port →
  truthy (getenv E "EMAIL_SMTP_HOST") && truthy (getenv E "EMAIL_USER")
  && truthy (getenv E "EMAIL_PASS") && truthy (getenv E "EMAIL_TO") = false →
  send_email_with_attachments E subject body attachments w
  = (Returned (),
     World (stdout w ++ ["Email not configured; skipping email send."])
           (files w) (network w) (slept w)).
Proof.
  intros Hport Hcond. unfold send_email_with_attachments, port_is in *.
  unfold mbind at 1, M_bind at 1, lift at 1.
  assert (match getenv E "EMAIL_SMTP_PORT" with
          | Some s => int s
          | None => Returned 587
          end = Returned port) as ->.
  { destruct (getenv E "EMAIL_SMTP_PORT") as [s|].
    - unfold int. by rewrite Hport.
    - by rewrite Hport. }
  destruct (getenv E "EMAIL_SMTP_HOST"), (getenv E "EMAIL_USER"),
    (getenv E "EMAIL_PASS"), (getenv E "EMAIL_TO"); try reflexivity.
  by rewrite Hcond.
Qed.

Lemma truthy_true v : truthy v = true → ∃ s, v = Some s ∧ s ≠ "".
Proof.
  destruct v as [s|]; [|discriminate]. simpl.
  intros H%bool_decide_eq_true. by exists s.
Qed.

(** The three ways through the notifier: the port is malformed, or mail
    is not configured, or it is. *)
Lemma send_email_cases E subject body attachments w :
  send_email_with_attachments E subject body attachments w
  = (Raised ValueError, w)
  ∨ send_email_with_attachments E subject body attachments w
    = (Returned (),
       World (stdout w ++ ["Email not configured; skipping email send."])
             (files w) (network w) (slept w))
  ∨ ∃ host user pass to port,
      configured E host user pass to ∧ port_is E port.
Proof.
  destruct (port_cases E) as [(s & Hs & Hparse)|[port Hport]].
  - left. by apply send_email_bad_port with s.
  - right.
    destruct (truthy (getenv E "EMAIL_SMTP_HOST")
              && truthy (getenv E "EMAIL_USER")
              && truthy (getenv E "EMAIL_PASS")
              && truthy (getenv E "EMAIL_TO")) eqn:Hcond.
    + right. apply andb_true_iff in Hcond as [Hcond Ht].
      apply andb_true_iff in Hcond as [Hcond Hp].
      apply andb_true_iff in Hcond as [Hh Hu].
      apply truthy_true in Hh as (host & ? & ?).
      apply truthy_true in Hu as (user & ? & ?).
      apply truthy_true in Hp as (pass & ? & ?).
      apply truthy_true in Ht as (to & ? & ?).
      exists host, user, pass, to, port. by repeat split.
    + left. by apply send_email_skips with port.
Qed.

(** When the server refuses to start TLS, neither the credentials nor the
    message leave the machine, whatever the configuration. *)
Theorem send_email_tls_refused E e subject body attachments w :
  smtp_starttls E = Some e →
  ∃ sent,
    network (send_email_with_attachments E subject body attachments w).2
    = network w ++ sent
    ∧ Forall (λ ev, ¬ after_tls ev) sent.
Proof.
  intros Htls.
  assert (∃ sent, network w = network w ++ sent
                  ∧ Forall (λ ev, ¬ after_tls ev) sent) as Hnone.
  { exists []. split; [by rewrite app_nil_r | constructor]. }
  destruct (send_email_cases E subject body attachments w)
    as [->|[->|(host & user & pass & to & port & Hconf & Hport)]];
    [done..|].
  rewrite (send_email_configured E host user pass to port) by done.
  rewrite check_bind.
  destruct (email_refuses E (SetHeader "Subject" subject)); [done|].
  rewrite check_bind.
  destruct (email_refuses E (SetHeader "From" user)); [done|].
  rewrite check_bind.
  destruct (email_refuses E (SetHeader "To" to)); [done|].
  rewrite check_bind.
  destruct (email_refuses E (SetContent body)); [done|].
  unfold mbind at 1, M_bind at 1.
  pose proof (attach_loop_world E (default [] attachments) [] w) as Hw.
  destruct (for_each (attach E) _ [] w) as [[atts|err] w1]; simpl in Hw;
    subst w1; [|done].
  cbv zeta. rewrite lift_bind.
  destruct (smtp_target host port) as [[h p]|err]; [|done].
  cbn [fst snd]. rewrite emit_bind, check_bind.
  destruct (smtp_connect E h p) as [err|].
  - exists [SmtpConnect h p]. split; [done|].
    repeat constructor. by intros ?.
  - rewrite emit_bind, check_bind, Htls.
    exists [SmtpConnect h p; SmtpStartTls].
    split; [simpl; by rewrite <- app_assoc|].
    repeat constructor; by intros ?.
Qed.

Lemma send_email_tls_refused_witness :
  ∃ sent,
    network
      (send_email_with_attachments no_tls_environment "Daily Jobs"
         "See attached" (Some ["jobs.csv"; "jobs.html"])
         (initial_world report_files)).2
    = network (initial_world report_files) ++ sent
    ∧ Forall (λ ev, ¬ after_tls ev) sent.
Proof.
  apply (send_email_tls_refused no_tls_environment SMTPException).
  reflexivity.
Defined.

(** With mail configured, a well-formed port and a message the [email]
    package takes, if one of the attachments is not on disk (and the
    package takes those that are), the notifier raises [FileNotFoundError]
    for a missing path before it opens any connection, and leaves the
    world as it was. *)
Theorem send_email_missing_attachment E host user pass to port subject body
    attachments w :
  configured E host user pass to → port_is E port →
  composes E subject user to body →
  attaches E (files w) (default [] attachments) →
  (∃ path, path ∈ default [] attachments ∧ files w !! path = None) →
  ∃ path,
    path ∈ default [] attachments ∧ files w !! path = None
    ∧ send_email_with_attachments E subject body attachments w
      = (Raised (FileNotFoundError path), w).
Proof.
  intros Hconf Hport (Hsub & Hfrom & Hto & Hbody) Hatt Hmissing.
  destruct (attach_loop_raises E _ [] w Hatt Hmissing)
    as (path & Hp & Hnone & Hrun).
  exists path. split; [done|]. split; [done|].
  rewrite (send_email_configured E host user pass to port) by done.
  rewrite check_bind, Hsub, check_bind, Hfrom, check_bind, Hto, check_bind,
    Hbody.
  unfold mbind at 1, M_bind at 1. by rewrite Hrun.
Qed.

Lemma send_email_missing_attachment_witness :
  ∃ path,
    path ∈ default [] (Some ["jobs.csv"; "jobs.html"])
    ∧ files (initial_world {[ "jobs.csv" := "csv" ]}) !! path = None
    ∧ send_email_with_attachments mail_environment "Daily Jobs"
        "See attached" (Some ["jobs.csv"; "jobs.html"])
        (initial_world {[ "jobs.csv" := "csv" ]})
      = (Raised (FileNotFoundError path),
         initial_world {[ "jobs.csv" := "csv" ]}).
Proof.
  apply (send_email_missing_attachment mail_environment "smtp.example.com"
           "me" "secret" "a@example.com" 587).
  - repeat split; done.
  - reflexivity.
  - repeat split; reflexivity.
  - intros path data _ _. reflexivity.
  - exists "jobs.html". split; [|reflexivity]. right. by left.
Defined.

(** ** Aggregator and entry point *)

(** One location: what a step that returns has added and done. *)
Lemma main_step_run g E entries location w entries' w' :
  main_step g E entries location w = (Returned entries', w') →
  ∃ found,
    entries' = entries ++ found
    ∧ Forall (adapter_record g [location]) found
    ∧ network w' = network w ++ requests_of g [location]
    ∧ files w' = files w
    ∧ slept w' = slept w + 1.
Proof.
  unfold main_step, mbind, M_bind.
  pose proof (parse_indeed_world g E location w) as Hw1.
  pose proof (parse_indeed_run_records g E location w) as Hr1.
  destruct (parse_indeed g E location w) as [[r1|e1] w1]; [|discriminate].
  pose proof (parse_wellfound_world g E location w1) as Hw2.
  pose proof (parse_wellfound_run_records g E location w1) as Hr2.
  destruct (parse_wellfound g E location w1) as [[r2|e2] w2];
    [|discriminate].
  simpl in *. intros [= <- <-]. simpl.
  destruct Hw1 as (Hn1 & Hf1 & Hs1 & _), Hw2 as (Hn2 & Hf2 & Hs2 & _).
  exists (r1 ++ r2). split; [by rewrite !app_nil_r, app_assoc|].
  split; [|split; [|split]].
  - apply Forall_app. split.
    + eapply Forall_impl; [by apply Hr1|]. intros e He.
      exists location. split; [by left | by left].
    + eapply Forall_impl; [by apply Hr2|]. intros e He.
      exists location. split; [by left | by right].
  - rewrite Hn2, Hn1. unfold requests_of. simpl. by rewrite <- app_assoc.
  - congruence.
  - rewrite Hs2, Hs1. done.
Qed.

Lemma adapter_record_mono g locations locations' e :
  locations ⊆ locations' →
  adapter_record g locations e → adapter_record g locations' e.
Proof.
  intros Hsub (loc & Hloc & H). exists loc. split; [by apply Hsub|done].
Qed.

(** The loop over the locations. *)
Lemma aggregate_run g E locations entries w entries' w' :
  for_each (main_step g E) locations entries w = (Returned entries', w') →
  ∃ found,
    entries' = entries ++ found
    ∧ Forall (adapter_record g locations) found
    ∧ network w' = network w ++ requests_of g locations
    ∧ files w' = files w
    ∧ slept w' = slept w + Z.of_nat (length locations).
Proof.
  revert entries w.
  induction locations as [|loc locations IH]; intros entries w Hrun.
  - injection Hrun as <- <-. exists []. rewrite !app_nil_r.
    repeat split; [constructor | simpl; lia].
  - rewrite for_each_M_cons in Hrun.
    destruct (main_step g E entries loc w) as [[entries1|e] w1] eqn:Hstep;
      [|discriminate].
    apply main_step_run in Hstep as (f1 & -> & Hf1 & Hn1 & Hfs1 & Hs1).
    apply IH in Hrun as (f2 & -> & Hf2 & Hn2 & Hfs2 & Hs2).
    exists (f1 ++ f2). split; [by rewrite app_assoc|].
    split; [|split; [|split]].
    + apply Forall_app. split.
      * eapply Forall_impl; [done|]. intros e.
        apply adapter_record_mono. intros x Hx.
        apply list_elem_of_singleton in Hx as ->. by left.
      * eapply Forall_impl; [done|]. intros e.
        apply adapter_record_mono. intros x Hx. by right.
    + rewrite Hn2, Hn1. unfold requests_of. simpl. by rewrite <- !app_assoc.
    + congruence.
    + rewrite Hs2, Hs1. simpl length. lia.
Qed.

(** Every record the aggregator collects was built by one of the two
    adapters for one of the locations, so it has the seven fields, among
    them the link the consolidator asks for. *)
Theorem aggregate_records g E locations w entries :
  (for_each (main_step g E) locations [] w).1 = Returned entries →
  Forall (adapter_record g locations) entries.
Proof.
  destruct (for_each (main_step g E) locations [] w) as [o w'] eqn:Hrun.
  simpl.
  intros ->. by apply aggregate_run in Hrun as (found & -> & H & _).
Qed.

Lemma aggregate_records_witness :
  Forall (adapter_record module_globals ["India"; "Saudi Arabia"])
    (indeed_page_records "India" ++ indeed_page_records "Saudi Arabia").
Proof.
  apply (aggregate_records module_globals indeed_environment
           ["India"; "Saudi Arabia"] (initial_world ∅)).
  by_evaluation.
Defined.

(** A run of the aggregator that returns has sent, for each location in
    turn, one request to Indeed and then one to Wellfound and nothing
    else, has slept one second for each location, and has written no
    file. *)
Theorem aggregate_effects g E locations w :
  (∃ entries, (for_each (main_step g E) locations [] w).1 = Returned entries)
  →
  let w' := (for_each (main_step g E) locations [] w).2 in
  network w' = network w ++ requests_of g locations
  ∧ slept w' = slept w + Z.of_nat (length locations)
  ∧ files w' = files w.
Proof.
  destruct (for_each (main_step g E) locations [] w) as [o w'] eqn:Hrun.
  simpl.
  intros [entries ->].
  by apply aggregate_run in Hrun as (found & _ & _ & ? & ? & ?).
Qed.

Lemma aggregate_effects_witness :
  let run :=
    for_each (main_step module_globals (status_environment 503))
      ["India"; "Saudi Arabia"] [] (initial_world ∅) in
  network run.2
  = network (initial_world ∅)
    ++ requests_of module_globals ["India"; "Saudi Arabia"]
  ∧ slept run.2
    = slept (initial_world ∅) + Z.of_nat (length ["India"; "Saudi Arabia"])
  ∧ files run.2 = files (initial_world ∅).
Proof.
  apply (aggregate_effects module_globals (status_environment 503)
           ["India"; "Saudi Arabia"] (initial_world ∅)).
  exists []. by_evaluation.
Defined.

Lemma adapter_record_dom g locations e :
  adapter_record g locations e → dom e = posting_fields.
Proof. by intros (loc & _ & [[H _]|[H _]]). Qed.

Lemma posting_fields_lookup (e : posting) c :
  dom e = posting_fields →
  c ∈ ["title"; "company"; "location"; "salary"; "link"; "source"; "summary"]
  → is_Some (e !! c).
Proof.
  intros Hdom Hc. apply elem_of_dom. rewrite Hdom. unfold posting_fields.
  by apply elem_of_list_to_set.
Qed.

(** Once the fetches have returned, neither the consolidator nor the
    reporter raises. With no posting left the run ends there: it prints
    that there is nothing to save, writes no file and does not call the
    notifier. Otherwise both files are written and the run ends as the
    notifier does, called with the two files as attachments. *)
Theorem main_after_fetch (to_csv to_html : DataFrame → string) g E w entries :
  let fetched := for_each (main_step g E) (LOCATIONS g) [] w in
  fetched.1 = Returned entries →
  ∃ results,
    consolidate_and_filter g entries = Returned results
    ∧ main to_csv to_html g E w
      = match results with
        | [] =>
            (Returned (),
             World (stdout fetched.2 ++ ["No results to save."])
                   (files fetched.2) (network fetched.2) (slept fetched.2))
        | _ =>
            send_email_with_attachments E "Daily Junior Software/Web Jobs"
              "Attached: jobs.csv and jobs.html"
              (Some ["jobs.csv"; "jobs.html"])
              (after_report to_csv to_html results fetched.2)
        end.
Proof.
  cbv zeta. intros Hfetch.
  destruct (for_each (main_step g E) (LOCATIONS g) [] w) as [o w1] eqn:Hrun.
  simpl in Hfetch. subst o. cbn [snd].
  unfold main. unfold mbind at 1, M_bind at 1. rewrite Hrun.
  apply aggregate_run in Hrun as (found & Hfound & Hrec & _).
  simpl in Hfound. subst found.
  assert (Forall has_link entries) as Hlinks.
  { eapply Forall_impl; [exact Hrec|]. intros e He.
    apply adapter_record_dom in He.
    apply (posting_fields_lookup e "link" He).
    apply list_elem_of_In. simpl. tauto. }
  destruct (consolidate_and_filter_returns g entries Hlinks)
    as (results & Hres & Hsub & _).
  exists results. split; [done|].
  unfold mbind at 1, M_bind at 1, lift. rewrite Hres.
  destruct results as [|e results]; [reflexivity|].
  unfold mbind at 1, M_bind at 1.
  rewrite save_results_run; [reflexivity | discriminate |].
  intros c Hc. exists e. split; [by left|].
  assert (e ∈ entries) as He by (eapply elem_of_sublist; [by left | done]).
  rewrite Forall_forall in Hrec. apply Hrec, adapter_record_dom in He.
  apply (posting_fields_lookup e c He). unfold report_columns in Hc.
  repeat (apply elem_of_cons in Hc as [->|Hc]);
    try (apply list_elem_of_In; simpl; tauto).
  by apply elem_of_nil in Hc.
Qed.

Lemma main_after_fetch_witness :
  let fetched :=
    for_each (main_step module_globals indeed_environment)
      (LOCATIONS module_globals) [] (initial_world ∅) in
  let entries :=
    indeed_page_records "India" ++ indeed_page_records "Saudi Arabia" in
  let results := take 1 (indeed_page_records "India") in
  fetched.1 = Returned entries
  ∧ consolidate_and_filter module_globals entries = Returned results
  ∧ main (λ _, "csv") (λ _, "html") module_globals indeed_environment
      (initial_world ∅)
    = send_email_with_attachments indeed_environment
        "Daily Junior Software/Web Jobs" "Attached: jobs.csv and jobs.html"
        (Some ["jobs.csv"; "jobs.html"])
        (after_report (λ _, "csv") (λ _, "html") results fetched.2).
Proof.
  cbv zeta.
  assert ((for_each (main_step module_globals indeed_environment)
             (LOCATIONS module_globals) [] (initial_world ∅)).1
          = Returned (indeed_page_records "India"
                      ++ indeed_page_records "Saudi Arabia")) as Hfetch
    by by_evaluation.
  assert (consolidate_and_filter module_globals
            (indeed_page_records "India"
             ++ indeed_page_records "Saudi Arabia")
          = Returned (take 1 (indeed_page_records "India"))) as Hcons
    by by_evaluation.
  destruct (main_after_fetch (λ _, "csv") (λ _, "html") module_globals
              indeed_environment (initial_world ∅) _ Hfetch)
    as (results & Hres & Hmain).
  rewrite Hcons in Hres. injection Hres as <-.
  split; [done|]. split; [done|]. exact Hmain.
Defined.

Lemma first_with_link_exists l entries (e : posting) :
  e ∈ entries → e !! "link" = Some l →
  ∃ e', first_with_link l entries = Some e'.
Proof.
  induction entries as [|x entries IH]; intros He Hl; [inversion He|].
  destruct (decide (x !! "link" = Some l)) as [Hx|Hx].
  - exists x. by apply first_with_link_cons_eq.
  - rewrite first_with_link_cons_ne by done. apply IH; [|done].
    apply elem_of_cons in He as [->|He]; [congruence | done].
Qed.

(** The consolidator's filter never drops a link of the Wellfound
    adapter: consolidating what [parse_wellfound] returned gives a list in
    which every link of the adapter's records still occurs, so only
    repeated links are removed. *)
Theorem wellfound_links_survive g E location w results :
  (parse_wellfound g E location w).1 = Returned results →
  ∃ out,
    consolidate_and_filter g results = Returned out
    ∧ ∀ e : posting, e ∈ results →
        ∃ e' : posting, e' ∈ out ∧ e' !! "link" = e !! "link".
Proof.
  intros Hrun. apply parse_wellfound_run_records in Hrun.
  rewrite Forall_forall in Hrun.
  assert (Forall has_link results) as Hlinks.
  { apply Forall_forall. intros e He.
    destruct (Hrun e He) as (_ & _ & _ & _ & (l & Hl & _) & _).
    by exists l. }
  destruct (consolidate_loop_returns g results ∅ [] Hlinks) as [st Hst].
  exists st.2. split.
  { unfold consolidate_and_filter. by rewrite Hst, bind_returned. }
  intros e He. destruct (Hrun e He) as (_ & _ & _ & _ & (l & Hl & _) & _).
  destruct (first_with_link_exists l results e He Hl) as [e' Hf].
  exists e'. apply first_with_link_link in Hf as Hf'.
  destruct Hf' as [Hl' He']. split; [|congruence].
  apply (consolidate_loop_complete g results ∅ [] st l e'); try done.
  by destruct (Hrun e' He') as (_ & _ & _ & _ & _ & Hp).
Qed.

Lemma wellfound_links_survive_witness :
  ∃ out,
    consolidate_and_filter module_globals
      (replicate 30
         (list_to_map
            [("title", "Junior Web Developer"); ("company", "Acme");
             ("location", "India"); ("salary", "N/A");
             ("link", "https://wellfound.com/jobs/1");
             ("source", "Wellfound");
             ("summary", "Junior Web Developer Acme")])) = Returned out
    ∧ ∀ e : posting,
        e ∈ replicate 30
              (list_to_map
                 [("title", "Junior Web Developer"); ("company", "Acme");
                  ("location", "India"); ("salary", "N/A");
                  ("link", "https://wellfound.com/jobs/1");
                  ("source", "Wellfound");
                  ("summary", "Junior Web Developer Acme")]) →
        ∃ e' : posting, e' ∈ out ∧ e' !! "link" = e !! "link".
Proof.
  apply (wellfound_links_survive module_globals
           (sample_environment ∅ (λ _, Returned wellfound_page)) "India"
           (initial_world ∅)).
  by_evaluation.
Defined.

(** An Indeed record that was let in for its company alone does not pass
    the consolidator's filter. *)
Example indeed_company_match_dropped :
  consolidate_and_filter module_globals (indeed_page_records "India")
  = Returned (take 1 (indeed_page_records "India")).
Proof. by_evaluation. Qed.

(** ** The readings of [int] and of the server address *)

Example int_parse_examples :
  Str.int_parse " 2525 " = Some 2525
  ∧ Str.int_parse (String (ascii_of_N 31) "25") = None
  ∧ Str.int_parse (String (ascii_of_N 28) "587") = None
  ∧ Str.int_parse ("25" +:+ String (ascii_of_N 30) EmptyString) = None
  ∧ Str.int_parse (String (ascii_of_N 11) "25") = Some 25.
Proof. repeat split; reflexivity. Qed.

Example smtp_target_examples :
  smtp_target "smtp.example.com" 587 = Returned ("smtp.example.com", 587)
  ∧ smtp_target "smtp.example.com" 0 = Returned ("smtp.example.com", 25)
  ∧ smtp_target "smtp.example.com:2525" 0
    = Returned ("smtp.example.com", 2525)
  ∧ smtp_target "smtp.example.com:smtp" 0 = Raised OSError
  ∧ smtp_target "::1" 0 = Returned ("::1", 25).
Proof. repeat split; reflexivity. Qed.
